(** * EZVals: case expansion and run-name resolution

    A shallow embedding of [ezvals/cases.py] (case normalisation, the
    per-field settings merger and the per-case synthesis of evaluation
    units), and of the run-name resolver that the CLI tests exercise.

    Python data is modelled as follows.
    - [str] is [string]: a sequence of code points below 256, compared
      lexicographically by code point, as Python compares strings.
    - [Dict[str, Any]] is [gmap string value]; dict equality in Python
      ignores insertion order, and so does the finite map. Nothing in
      [normalize_cases] checks that the keys of a case are strings: a
      case dict that also has integer keys is a declaration element of
      its own kind, which carries those keys.
    - The case dicts of a raw declaration are objects: the caller holds
      references to them, so they live in a heap and are named by
      locations.  Everything stored inside a dict is an immutable view.
    - A raise is an outcome, [Raise e]; [Unmodelled] marks the few
      behaviours of Python the embedding does not cover.
    - [repr] of containers and of function objects is a parameter. *)

From stdpp Require Import gmap strings list fin_maps sorting pretty.

Open Scope string_scope.
Open Scope list_scope.
Open Scope nat_scope.

(** ** Python values *)

#[warnings="-register-all"]
Inductive value :=
  | VNone
  | VBool (b : bool)
  | VInt (z : Z)
  | VStr (s : string)
  | VList (l : list value)
  | VDict (d : gmap string value)
  | VFunc (name : string).

Global Instance value_inhabited : Inhabited value := populate VNone.

(** [bool(v)] *)
Definition truthy (v : value) : bool :=
  match v with
  | VNone => false
  | VBool b => b
  | VInt z => negb (z =? 0)%Z
  | VStr s => negb (String.eqb s "")
  | VList l => negb (length l =? 0)%nat
  | VDict d => negb (size d =? 0)%nat
  | VFunc _ => true
  end.

(** [v is None] *)
Definition is_None (v : value) : bool :=
  match v with VNone => true | _ => false end.

(** [v == []]: among the modelled values only the empty list equals []. *)
Definition eq_empty_list (v : value) : bool :=
  match v with VList [] => true | _ => false end.

(** ** Outcomes *)

Inductive exn :=
  | ValueError (msg : string)
  | TypeError (msg : string)
  | AttributeError (attr : string)
  | NotFoundError (session run : string)
  | AmbiguousNameError (session run : string).

Inductive outcome (A : Type) :=
  | Ok (a : A)
  | Raise (e : exn)
  | Unmodelled.
Global Arguments Ok {A} a.
Global Arguments Raise {A} e.
Global Arguments Unmodelled {A}.

Global Instance outcome_ret : MRet outcome := @Ok.
Global Instance outcome_bind : MBind outcome := λ A B f m,
  match m with
  | Ok a => f a
  | Raise e => Raise e
  | Unmodelled => Unmodelled
  end.

(** [sep.join(l)] *)
Definition join (sep : string) (l : list string) : string := String.concat sep l.

(** [sorted(s)] for a set of strings. The elements of a set are pairwise
    distinct, so the sorted list does not depend on the order in which the
    set is iterated, nor on the sorting algorithm. *)
Definition sorted (s : gset string) : list string :=
  merge_sort String.le (elements s).

(** ** Heap of dict objects *)

Definition loc := nat.
Abbreviation heap := (gmap loc (gmap string value)).

(** A computation that reads and writes the heap and may raise; the heap
    survives a raise. *)
Definition M (A : Type) : Type := heap → outcome A * heap.

Global Instance M_ret : MRet M := λ A a h, (Ok a, h).
Global Instance M_bind : MBind M := λ A B f m h,
  match m h with
  | (Ok a, h') => f a h'
  | (Raise e, h') => (Raise e, h')
  | (Unmodelled, h') => (Unmodelled, h')
  end.
Definition raise {A} (e : exn) : M A := λ h, (Raise e, h).
Definition unmodelled {A} : M A := λ h, (Unmodelled, h).

(** [dict(d)]: a new dict object with the entries of [d]. *)
Definition dict_copy (l : loc) : M loc := λ h,
  let l' := fresh (dom h) in (Ok l', <[l' := h !!! l]> h).

(** [d.pop(k, default)]: removes [k] from the object [d] itself. *)
Definition dict_pop (l : loc) (k : string) (default : value) : M value := λ h,
  (Ok (from_option id default ((h !!! l) !! k)), alter (delete k) l h).

(** [set(d.keys())] *)
Definition dict_keys (l : loc) : M (gset string) := λ h, (Ok (dom (h !!! l)), h).

(** ** cases.py *)

Section cases.
  (** Python's [repr] of lists, dicts and function objects. *)
  Context (repr : value → string).

(** [str(v)] *)
Definition py_str (v : value) : string :=
  match v with
  | VNone => "None"
  | VBool true => "True"
  | VBool false => "False"
  | VInt z => pretty z
  | VStr s => s
  | VList _ | VDict _ | VFunc _ => repr v
  end.

Record CaseBlock := {
  case_sets : list loc;
  case_ids : list (option string);
}.

Definition RESERVED_CASE_KEYS : gset string :=
  {[ "input"; "reference"; "metadata"; "dataset"; "labels";
     "default_score_key"; "timeout"; "target"; "evaluators" ]}.

(** An element of a raw declaration: a reference to a dict object all of
    whose keys are strings, or anything that is not a dict, or a
    reference to a dict object that has, besides the string-keyed entries
    kept in the heap, the integer keys [k] and [ks]. The values under
    the integer keys play no part, and such a dict is never stored in a
    table, since the loop raises on it. *)
Inductive case_elem :=
  | DictRef (l : loc)
  | NotADict
  | IntKeyedDictRef (l : loc) (k : Z) (ks : list Z).

(** The raw declaration handed to [normalize_cases]: [None], a list or
    tuple, or anything else. *)
Inductive raw_cases :=
  | CasesNone
  | CasesSeq (elems : list case_elem)
  | CasesOther.

(** The keys of a case that remain once the optional [id] is removed and
    that are not reserved:
    [set(case_dict.keys()) - RESERVED_CASE_KEYS] after the [pop]. *)
Definition unknown_keys (case : gmap string value) : gset string :=
  dom (delete "id" case) ∖ RESERVED_CASE_KEYS.

(** The reference held by an element of the declaration is live: it names
    a dict object of the heap. *)
Definition live (h : heap) (e : case_elem) : bool :=
  match e with
  | DictRef l => bool_decide (is_Some (h !! l))
  | NotADict => true
  | IntKeyedDictRef l _ _ => bool_decide (is_Some (h !! l))
  end.

(** [None if case_id is None else str(case_id)] *)
Definition id_text (case_id : value) : option string :=
  if is_None case_id then None else Some (py_str case_id).

(** The body of [for idx, case in enumerate(cases)], with the two
    accumulators of the source. *)
Fixpoint normalize_loop (idx : nat) (cases : list case_elem)
    (case_sets : list loc) (case_ids : list (option string)) : M CaseBlock :=
  match cases with
  | [] => mret {| case_sets := case_sets; case_ids := case_ids |}
  | NotADict :: _ =>
      raise (ValueError ("Case " +:+ pretty idx +:+ " must be a dict"))
  | DictRef case :: rest =>
      case_dict ← dict_copy case;
      case_id ← dict_pop case_dict "id" VNone;
      let case_ids := case_ids ++ [id_text case_id] in
      keys ← dict_keys case_dict;
      let unknown := keys ∖ RESERVED_CASE_KEYS in
      if bool_decide (unknown ≠ ∅) then
        let unknown_list := join ", " (sorted unknown) in
        raise (ValueError ("Unknown case keys: " +:+ unknown_list))
      else
        normalize_loop (S idx) rest (case_sets ++ [case_dict]) case_ids
  | IntKeyedDictRef case _ _ :: _ =>
      (* The integer keys are neither ["id"] nor reserved, so [unknown]
         is not empty. With an unknown string key as well, [sorted]
         compares a string with an integer and raises a [TypeError]
         whose message depends on the order in which the set is
         iterated. With integers only, [sorted] returns and [join]
         refuses its first item. *)
      case_dict ← dict_copy case;
      case_id ← dict_pop case_dict "id" VNone;
      let case_ids := case_ids ++ [id_text case_id] in
      keys ← dict_keys case_dict;
      let unknown_strings := keys ∖ RESERVED_CASE_KEYS in
      if bool_decide (unknown_strings ≠ ∅) then unmodelled
      else
        raise (TypeError "sequence item 0: expected str instance, int found")
  end.

Definition normalize_cases (cases : raw_cases) : M (option CaseBlock) :=
  match cases with
  | CasesNone => mret None
  | CasesOther => raise (ValueError "cases must be a list of dicts")
  | CasesSeq elems => block ← normalize_loop 0 elems [] []; mret (Some block)
  end.

(** *** Functions and base specifications *)

(** A plain Python function object, with the attributes that [cases.py]
    reads or stitches onto it. An attribute that was never set is [None]. *)
Record PyFunction := {
  __name__ : string;
  __case_sets__ : option (list loc);
  __case_ids__ : option (list (option string));
  (** [inspect.iscoroutinefunction(f)] *)
  iscoroutinefunction : bool;
  (** some parameter of the signature is annotated with [EvalContext] *)
  annotated_EvalContext : bool;
}.

(** Modelled from the spec: the class [EvalFunction] is declared in
    [ezvals/decorators.py], which is not part of the sources at hand. The
    record has the attributes that [generate_eval_functions] reads, typed
    as section 3 of the specification types the base specification;
    [labels] is a list of strings, so [list(labels or [])] is [labels].
    [wrapper_case_sets] and [wrapper_case_ids] are the attributes
    [__case_sets__] and [__case_ids__] of the wrapper object itself. *)
Record EvalFunction := {
  func : PyFunction;
  dataset : value;
  labels : list string;
  evaluators : value;
  target : value;
  timeout : value;
  context_kwargs : gmap string value;
  context_param : option string;
  _provided_labels : value;
  _provided_evaluators : value;
  wrapper_case_sets : option (list loc);
  wrapper_case_ids : option (list (option string));
}.

(** What [apply_cases] and [generate_eval_functions] receive: a plain
    function, or one already wrapped by the decorator. *)
Inductive callable :=
  | Plain (f : PyFunction)
  | Decorated (e : EvalFunction).

(** [func.__case_sets__ = ...; func.__case_ids__ = ...] *)
Definition set_case_attrs (fn : callable) (block : CaseBlock) : callable :=
  match fn with
  | Plain f =>
      Plain {| __name__ := __name__ f;
               __case_sets__ := Some (case_sets block);
               __case_ids__ := Some (case_ids block);
               iscoroutinefunction := iscoroutinefunction f;
               annotated_EvalContext := annotated_EvalContext f |}
  | Decorated e =>
      Decorated {| func := func e; dataset := dataset e; labels := labels e;
                   evaluators := evaluators e; target := target e;
                   timeout := timeout e; context_kwargs := context_kwargs e;
                   context_param := context_param e;
                   _provided_labels := _provided_labels e;
                   _provided_evaluators := _provided_evaluators e;
                   wrapper_case_sets := Some (case_sets block);
                   wrapper_case_ids := Some (case_ids block) |}
  end.

Definition apply_cases (fn : callable) (cases : raw_cases) : M callable :=
  block ← normalize_cases cases;
  match block with
  | None => mret fn
  | Some block => mret (set_case_attrs fn block)
  end.

(** *** The settings merger *)

(** [merged.update(other)] for a truthy [other]. A list would have to be
    a sequence of key/value pairs, which is not modelled; the characters
    of a non-empty string are sequences of length one. *)
Definition dict_update (merged : gmap string value) (other : value)
    : outcome (gmap string value) :=
  match other with
  | VDict d => Ok (d ∪ merged)
  | VList _ => Unmodelled
  | VStr _ =>
      Raise (ValueError
        "dictionary update sequence element #0 has length 1; 2 is required")
  | VNone => Raise (TypeError "'NoneType' object is not iterable")
  | VBool _ => Raise (TypeError "'bool' object is not iterable")
  | VInt _ => Raise (TypeError "'int' object is not iterable")
  | VFunc _ => Raise (TypeError "'function' object is not iterable")
  end.

Definition _merge_metadata (base override : value) : outcome value :=
  if is_None override then Ok VNone
  else
    let merged : gmap string value := ∅ in
    merged ← (if truthy base then dict_update merged base else Ok merged);
    merged ← (if truthy override then dict_update merged override
              else Ok merged);
    Ok (if truthy (VDict merged) then VDict merged else VNone).

Definition _merge_labels (base : list string) (override : option (list string))
    : list string :=
  match override with
  | None => []
  | Some override => base ++ filter (λ l, l ∉ base) override
  end.

(** The one-character strings of [s], in order. *)
Fixpoint chars (s : string) : list string :=
  match s with
  | EmptyString => []
  | String c s => String c EmptyString :: chars s
  end.

(** The strings of a list of values, if all of them are strings. *)
Fixpoint strs (l : list value) : option (list string) :=
  match l with
  | [] => Some []
  | VStr s :: l => cons s <$> strs l
  | _ :: _ => None
  end.

(** [list(v)] where a list of labels is expected. The merger is typed for
    lists of strings; a list with other elements is not modelled, and
    neither is the key order of a dict. *)
Definition py_list (v : value) : outcome (list string) :=
  match v with
  | VList l => match strs l with Some l => Ok l | None => Unmodelled end
  | VStr s => Ok (chars s)
  | VDict _ => Unmodelled
  | VNone => Raise (TypeError "'NoneType' object is not iterable")
  | VBool _ => Raise (TypeError "'bool' object is not iterable")
  | VInt _ => Raise (TypeError "'int' object is not iterable")
  | VFunc _ => Raise (TypeError "'function' object is not iterable")
  end.

(** [k in d] and [d.get(k)] *)
Definition contains (d : gmap string value) (k : string) : bool :=
  bool_decide (is_Some (d !! k)).
Definition get (d : gmap string value) (k : string) : value :=
  from_option id VNone (d !! k).

(** *** Evaluation units *)

(** The callable synthesised for one case: its name, its calling
    convention and the implementation it forwards to. *)
Record Wrapper := {
  wrapper_name : string;
  takes_context : bool;
  is_coroutine : bool;
  forwards_to : PyFunction;
}.

(** An attribute of a fresh object: still what the constructor made it,
    or assigned afterwards. *)
Inductive attribute (A : Type) :=
  | AsConstructed
  | Assigned (a : A).
Global Arguments AsConstructed {A}.
Global Arguments Assigned {A} a.

(** Modelled from the spec: the constructor of [EvalFunction] is not part
    of the sources at hand. An evaluation unit is the keyword arguments
    that [generate_eval_functions] hands to it, with the two provenance
    attributes that are assigned to the new object afterwards. *)
Record EvalUnit := {
  unit_func : Wrapper;
  unit_dataset : value;
  unit_labels : list string;
  unit_evaluators : value;
  unit_target : value;
  unit_input : value;
  unit_reference : value;
  unit_default_score_key : value;
  unit_metadata : value;
  unit_timeout : value;
  unit_provided_labels : attribute value;
  unit_provided_evaluators : attribute value;
}.

(** [case_ids[idx] if case_ids and idx < len(case_ids) else None] *)
Definition case_id_at (case_ids : list (option string)) (idx : nat)
    : option string :=
  if negb (length case_ids =? 0) && (idx <? length case_ids)
  then case_ids !!! idx else None.

(** [f"{test_id or idx}"] *)
Definition id_or_index (test_id : option string) (idx : nat) : string :=
  match test_id with
  | Some s => if String.eqb s "" then pretty idx else s
  | None => pretty idx
  end.

(** Lines 145-152 of the loop body: the labels of the unit. *)
Definition resolve_labels (base_labels : list string)
    (case : gmap string value) : outcome (list string) :=
  if contains case "labels" then
    let case_labels := get case "labels" in
    if is_None case_labels || eq_empty_list case_labels then Ok []
    else l ← py_list case_labels; Ok (_merge_labels base_labels (Some l))
  else Ok base_labels.

(** Lines 154-157 of the loop body: the metadata of the unit. *)
Definition resolve_metadata (base_metadata : value)
    (case : gmap string value) : outcome value :=
  if contains case "metadata" then
    _merge_metadata base_metadata (get case "metadata")
  else Ok base_metadata.

(** [eval_settings.attr if eval_settings else default] *)
Definition if_settings {A} (eval_settings : option EvalFunction)
    (attr : EvalFunction → A) (default : A) : A :=
  match eval_settings with Some e => attr e | None => default end.

(** The body of [for idx, case in enumerate(case_sets)]. *)
Definition eval_unit (eval_settings : option EvalFunction)
    (base_func : PyFunction) (has_context is_async : bool)
    (case_ids : list (option string)) (idx : nat)
    (case : gmap string value) : outcome EvalUnit :=
  let test_id := case_id_at case_ids idx in
  let func_name := __name__ base_func +:+ "[" +:+ id_or_index test_id idx +:+ "]" in
  let wrapper := {| wrapper_name := func_name; takes_context := has_context;
                    is_coroutine := is_async; forwards_to := base_func |} in
  let settings {A} := @if_settings A eval_settings in
  let base_dataset := settings dataset VNone in
  let base_labels := settings labels [] in
  let base_target := settings target VNone in
  let base_evaluators := settings evaluators VNone in
  let base_timeout := settings timeout VNone in
  let base_input := settings (λ e, get (context_kwargs e) "input") VNone in
  let base_reference := settings (λ e, get (context_kwargs e) "reference") VNone in
  let base_default_score_key :=
    settings (λ e, get (context_kwargs e) "default_score_key") VNone in
  let base_metadata := settings (λ e, get (context_kwargs e) "metadata") VNone in
  let dataset := if contains case "dataset" then get case "dataset" else base_dataset in
  labels ← resolve_labels base_labels case;
  metadata ← resolve_metadata base_metadata case;
  let input_value := if contains case "input" then get case "input" else base_input in
  let reference_value :=
    if contains case "reference" then get case "reference" else base_reference in
  let default_score_key :=
    if contains case "default_score_key" then get case "default_score_key"
    else base_default_score_key in
  let timeout := if contains case "timeout" then get case "timeout" else base_timeout in
  let target := if contains case "target" then get case "target" else base_target in
  let evaluators :=
    if contains case "evaluators" then
      let case_evaluators := get case "evaluators" in
      if is_None case_evaluators then VList [] else case_evaluators
    else base_evaluators in
  let provided_labels :=
    settings (λ e, Assigned (_provided_labels e)) AsConstructed in
  let provided_evaluators :=
    settings (λ e, Assigned (_provided_evaluators e)) AsConstructed in
  let provided_labels :=
    if contains case "labels" then Assigned (VList []) else provided_labels in
  let provided_evaluators :=
    if contains case "evaluators" then Assigned (VList []) else provided_evaluators in
  Ok {| unit_func := wrapper; unit_dataset := dataset; unit_labels := labels;
        unit_evaluators := evaluators; unit_target := target;
        unit_input := input_value; unit_reference := reference_value;
        unit_default_score_key := default_score_key;
        unit_metadata := metadata; unit_timeout := timeout;
        unit_provided_labels := provided_labels;
        unit_provided_evaluators := provided_evaluators |}.

Section generate.
  Context (h : heap) (eval_settings : option EvalFunction)
    (base_func : PyFunction) (has_context is_async : bool)
    (case_ids : list (option string)).

(** The loop [for idx, case in enumerate(case_sets)], appending to
    [functions]. *)
Fixpoint generate_loop (idx : nat) (case_sets : list loc)
    (functions : list EvalUnit) : outcome (list EvalUnit) :=
  match case_sets with
  | [] => Ok functions
  | case :: rest =>
      eval_func ← eval_unit eval_settings base_func has_context is_async
                    case_ids idx (h !!! case);
      generate_loop (S idx) rest (functions ++ [eval_func])
  end.

End generate.

(** The attributes [__case_sets__] and [__case_ids__] as
    [generate_eval_functions] finds them: on the underlying function
    first, then on the object it was handed. Reading [__case_ids__] where
    only [__case_sets__] was set is an [AttributeError]. *)
Definition find_case_attrs (fn : callable) (base_func : PyFunction)
    : outcome (option (list loc * list (option string))) :=
  let read (sets : list loc) (ids : option (list (option string))) :=
    match ids with
    | Some ids => Ok (Some (sets, ids))
    | None => Raise (AttributeError "__case_ids__")
    end in
  match __case_sets__ base_func with
  | Some sets => read sets (__case_ids__ base_func)
  | None =>
      match fn with
      | Decorated e =>
          match wrapper_case_sets e with
          | Some sets => read sets (wrapper_case_ids e)
          | None => Ok None
          end
      | Plain _ => Ok None
      end
  end.

Definition generate_eval_functions (fn : callable) (h : heap)
    : outcome (list EvalUnit) :=
  let eval_settings := match fn with Decorated e => Some e | Plain _ => None end in
  let base_func := match fn with Decorated e => func e | Plain f => f end in
  attrs ← find_case_attrs fn base_func;
  match attrs with
  | None =>
      Raise (ValueError ("Function " +:+ __name__ base_func
                         +:+ " does not have __case_sets__ attribute"))
  | Some (case_sets, case_ids) =>
      let has_context :=
        match eval_settings with
        | Some e => bool_decide (is_Some (context_param e))
        | None => annotated_EvalContext base_func
        end in
      let is_async := iscoroutinefunction base_func in
      generate_loop h eval_settings base_func has_context is_async case_ids
        0 case_sets []
  end.

End cases.

(** ** Run store and run-name resolution *)

(** Modelled from the spec: [ResultsStore] and
    [_resolve_run_name_in_session] live in [ezvals/storage.py] and
    [ezvals/cli.py], which are not part of the sources at hand; only their
    tests are. Sections 3, 4.5 and 4.6 of the specification are followed:
    a store is a two-level hierarchy, sessions on top and runs below, each
    run filed under its own [run_id]. *)
Record RunRecord := {
  run_id : string;
  session_name : string;
  run_name : string;
  summary : value;
}.

Abbreviation store := (gmap string (gmap string RunRecord)).

(** Modelled from the spec: [save_run] with an explicit [run_id] and
    [overwrite=False]: the record is filed under its [run_id] in the
    session, whatever names the other runs of the session have. *)
Definition save_run (st : store) (summary : value)
    (run_id session_name run_name : string) : store :=
  <[session_name :=
      <[run_id := {| run_id := run_id; session_name := session_name;
                     run_name := run_name; summary := summary |}]>
        (st !!! session_name)]> st.

(** Modelled from the spec: the runs of the session whose [run_name] is
    exactly the query. *)
Definition matching_runs (st : store) (session name : string)
    : gmap string RunRecord :=
  filter (λ kr, run_name kr.2 = name) (st !!! session).

(** Modelled from the spec: section 4.6, [resolve]. *)
Definition resolve (st : store) (session name : string) (required : bool)
    : outcome (option RunRecord) :=
  match map_to_list (matching_runs st session name) with
  | [] => if required then Raise (NotFoundError session name) else Ok None
  | [(_, r)] => Ok (Some r)
  | _ => Raise (AmbiguousNameError session name)
  end.

(** ** Vocabulary of the statements *)

(** What [generate_eval_functions] binds first: the base specification,
    the underlying function and the calling convention. *)
Definition eval_settings_of (fn : callable) : option EvalFunction :=
  match fn with Decorated e => Some e | Plain _ => None end.
Definition base_func_of (fn : callable) : PyFunction :=
  match fn with Decorated e => func e | Plain f => f end.
Definition has_context_of (fn : callable) : bool :=
  match fn with
  | Decorated e => bool_decide (is_Some (context_param e))
  | Plain f => annotated_EvalContext f
  end.

(** The function carries no case table: neither the underlying function
    nor the object itself has the attribute [__case_sets__]. *)
Definition unmarked (fn : callable) : bool :=
  match fn with
  | Plain f => bool_decide (__case_sets__ f = None)
  | Decorated e =>
      bool_decide (__case_sets__ (func e) = None)
      && bool_decide (wrapper_case_sets e = None)
  end.

(** The function underneath a wrapper carries no case table of its own,
    which would take precedence over the one attached to the wrapper. *)
Definition no_inner_table (fn : callable) : bool :=
  match fn with
  | Plain _ => true
  | Decorated e => bool_decide (__case_sets__ (func e) = None)
  end.

(** The table a successful normalisation returns, element by element:
    each new case dict is the copy of its element without ["id"], it is
    stored in the final heap, and the ids are collected in step. *)
Definition normalized_as (repr : value → string) (h0 h' : heap)
    (e : case_elem) (l' : loc) (i : option string) : Prop :=
  ∃ l, e = DictRef l ∧
       unknown_keys (h0 !!! l) = ∅ ∧
       h' !! l' = Some (delete "id" (h0 !!! l)) ∧
       i = id_text repr (get (h0 !!! l) "id").

(** The id column of a declaration. *)
Definition declared_id (repr : value → string) (h : heap) (e : case_elem)
    : option string :=
  match e with
  | DictRef l => id_text repr (get (h !!! l) "id")
  | NotADict => None
  | IntKeyedDictRef l _ _ => id_text repr (get (h !!! l) "id")
  end.

(** A value that the merger is typed for: a mapping or [None]. *)
Definition mapping_or_None (v : value) : bool :=
  match v with VNone | VDict _ => true | _ => false end.

(** The [labels] override of a case, if any, is [None] or a list of
    strings; its [metadata] override, if any, is [None] or a mapping. *)
Definition labels_typed (case : gmap string value) : bool :=
  match case !! "labels" with
  | None | Some VNone => true
  | Some (VList l) => bool_decide (is_Some (strs l))
  | Some _ => false
  end.
Definition metadata_typed (case : gmap string value) : bool :=
  match case !! "metadata" with
  | None => true
  | Some v => mapping_or_None v
  end.
Definition case_typed (h : heap) (e : case_elem) : bool :=
  match e with
  | DictRef l => labels_typed (h !!! l) && metadata_typed (h !!! l)
  | NotADict => true
  | IntKeyedDictRef l _ _ => labels_typed (h !!! l) && metadata_typed (h !!! l)
  end.
Definition base_metadata_typed (fn : callable) : bool :=
  match fn with
  | Decorated e => mapping_or_None (get (context_kwargs e) "metadata")
  | Plain _ => true
  end.

(** The mapping a base metadata value stands for: itself, or the empty
    mapping when the base has none. *)
Definition base_mapping (base : value) : gmap string value :=
  match base with VDict b => b | _ => ∅ end.

(** The shallow merge of the specification: the base mapping with the
    keys of the override laid over it. *)
Definition shallow_merge (base : value) (override : gmap string value)
    : gmap string value :=
  override ∪ base_mapping base.

(** The text between the brackets of a display name, from the raw [id]
    entry of the case at position [i]. *)
Definition id_or_position (repr : value → string)
    (case : gmap string value) (i : nat) : string :=
  match case !! "id" with
  | Some v =>
      if is_None v || String.eqb (py_str repr v) "" then pretty i
      else py_str repr v
  | None => pretty i
  end.

(** The case table and the id column that [generate_eval_functions]
    finds on a function; empty when there is none. *)
Definition case_table (fn : callable) : list loc :=
  match find_case_attrs fn (base_func_of fn) with
  | Ok (Some (sets, _)) => sets
  | _ => []
  end.
Definition id_column (fn : callable) : list (option string) :=
  match find_case_attrs fn (base_func_of fn) with
  | Ok (Some (_, ids)) => ids
  | _ => []
  end.

(** Presence of the key decides: [v] is the entry of the case under [k]
    when there is one, whatever its value, and the base value otherwise. *)
Definition overridden (case : gmap string value) (k : string)
    (base v : value) : Prop :=
  match case !! k with
  | Some x => v = x
  | None => v = base
  end.

(** The ordered union as the specification words it: the base labels
    first, then each override label that is not already present, so that
    no label is added twice. *)
Definition ordered_union (base override : list string) : list string :=
  fold_left (λ acc l, if decide (l ∈ acc) then acc else acc ++ [l])
    override base.

(** An element that passes the checks of the normalisation loop: a dict
    all of whose keys are reserved, [id] apart. *)
Definition well_formed (h : heap) (e : case_elem) : bool :=
  match e with
  | DictRef l => bool_decide (unknown_keys (h !!! l) = ∅)
  | NotADict => false
  | IntKeyedDictRef _ _ _ => false
  end.

(** The values that [list(v)] and [dict.update(v)] refuse as not
    iterable. *)
Definition not_iterable (v : value) : bool :=
  match v with
  | VBool _ | VInt _ | VFunc _ => true
  | _ => false
  end.

(** ** Example data *)

(** A stand-in for [repr] in the examples; none of them prints a
    container. *)
Definition repr_stub (v : value) : string := "<object>".

Definition plain_f : PyFunction :=
  {| __name__ := "f"; __case_sets__ := None; __case_ids__ := None;
     iscoroutinefunction := false; annotated_EvalContext := false |}.

(** [@eval(labels=["prod"], timeout=30)] on [f], as in the end-to-end
    example of the specification, with base metadata [{"j": 0}]. *)
Definition base_prod : EvalFunction :=
  {| func := plain_f; dataset := VNone; labels := ["prod"];
     evaluators := VNone; target := VNone; timeout := VInt 30;
     context_kwargs := {[ "metadata" := VDict {[ "j" := VInt 0 ]} ]};
     context_param := None;
     _provided_labels := VList [VStr "prod"]; _provided_evaluators := VNone;
     wrapper_case_sets := None; wrapper_case_ids := None |}.

(** [[{"id": 7, "input": "x"}, {"zeta": 1, "labels": None, "alpha": 2}]] *)
Definition heap_unknown : heap :=
  {[ 1 := {[ "id" := VInt 7; "input" := VStr "x" ]};
     2 := {[ "zeta" := VInt 1; "labels" := VNone; "alpha" := VInt 2 ]} ]}.

(** [[{"id": "a", "input": "x"}, {"id": "b", "labels": [], "input": "y"}]] *)
Definition heap_ab : heap :=
  {[ 1 := {[ "id" := VStr "a"; "input" := VStr "x" ]};
     2 := {[ "id" := VStr "b"; "labels" := VList []; "input" := VStr "y" ]} ]}.

(** [[{"id": "1"}, {"dataset": None}]]: the two display names coincide. *)
Definition heap_same_name : heap :=
  {[ 1 := {[ "id" := VStr "1" ]}; 2 := {[ "dataset" := VNone ]} ]}.

(** [[{"id": ""}]] *)
Definition heap_empty_id : heap := {[ 1 := {[ "id" := VStr "" ]} ]}.


(** [[{"labels": 5}]] *)
Definition heap_labels_5 : heap := {[ 1 := {[ "labels" := VInt 5 ]} ]}.

(** The store of [test_resolve_run_name_in_session_ambiguous]. *)
Definition store_ambiguous : store :=
  save_run (save_run ∅ VNone "run001" "s1" "baseline")
    VNone "run002" "s1" "baseline".

(** What [apply_cases] makes of [base_prod] and of the declaration in
    [heap_ab]: the table is attached to the wrapper, and the heap holds
    the two copies without their ids. *)
Definition base_prod_ab : EvalFunction :=
  {| func := plain_f; dataset := VNone; labels := ["prod"];
     evaluators := VNone; target := VNone; timeout := VInt 30;
     context_kwargs := {[ "metadata" := VDict {[ "j" := VInt 0 ]} ]};
     context_param := None;
     _provided_labels := VList [VStr "prod"]; _provided_evaluators := VNone;
     wrapper_case_sets := Some [3; 4];
     wrapper_case_ids := Some [Some "a"; Some "b"] |}.

Definition heap_ab_normalized : heap :=
  <[ 4 := {[ "labels" := VList []; "input" := VStr "y" ]} ]>
    (<[ 3 := {[ "input" := VStr "x" ]} ]> heap_ab).

(** The two units of the end-to-end example of the specification. *)
Definition unit_a : EvalUnit :=
  {| unit_func := {| wrapper_name := "f[a]"; takes_context := false;
                     is_coroutine := false; forwards_to := plain_f |};
     unit_dataset := VNone; unit_labels := ["prod"];
     unit_evaluators := VNone; unit_target := VNone;
     unit_input := VStr "x"; unit_reference := VNone;
     unit_default_score_key := VNone;
     unit_metadata := VDict {[ "j" := VInt 0 ]}; unit_timeout := VInt 30;
     unit_provided_labels := Assigned (VList [VStr "prod"]);
     unit_provided_evaluators := Assigned VNone |}.

Definition unit_b : EvalUnit :=
  {| unit_func := {| wrapper_name := "f[b]"; takes_context := false;
                     is_coroutine := false; forwards_to := plain_f |};
     unit_dataset := VNone; unit_labels := [];
     unit_evaluators := VNone; unit_target := VNone;
     unit_input := VStr "y"; unit_reference := VNone;
     unit_default_score_key := VNone;
     unit_metadata := VDict {[ "j" := VInt 0 ]}; unit_timeout := VInt 30;
     unit_provided_labels := Assigned (VList []);
     unit_provided_evaluators := Assigned VNone |}.

(** [[{"input": "x"}, 3]]: the second element is not a dict. *)
Definition heap_one : heap := {[ 1 := {[ "input" := VStr "x" ]} ]}.

(** A function whose table has two cases and an id list that stops
    short; the second case overrides the labels with [5]. *)
Definition plain_f_short_ids : PyFunction :=
  {| __name__ := "f"; __case_sets__ := Some [1; 2]; __case_ids__ := Some [];
     iscoroutinefunction := false; annotated_EvalContext := false |}.

Definition heap_second_case_untyped : heap :=
  {[ 1 := {[ "input" := VStr "x" ]}; 2 := {[ "labels" := VInt 5 ]} ]}.

Definition heap_two_plain_cases : heap :=
  {[ 1 := {[ "input" := VStr "x" ]}; 2 := {[ "evaluators" := VNone ]} ]}.

(** The store of [test_resolve_run_name_in_session]: one run. *)
Definition store_one : store := save_run ∅ VNone "run001" "s1" "baseline".

(** * Properties *)

(** ** Normalisation *)

Section normalize_facts.
  Context (repr : value → string).

(** One turn of the loop on a dict element, with the heap written out. *)
Lemma normalize_loop_cons idx l rest cs ids (h : heap) :
  normalize_loop repr idx (DictRef l :: rest) cs ids h =
    let d := h !!! l in
    let l' := fresh (dom h) in
    let h1 := <[l' := delete "id" d]> h in
    if bool_decide (unknown_keys d ≠ ∅) then
      (Raise (ValueError ("Unknown case keys: "
                          +:+ join ", " (sorted (unknown_keys d)))), h1)
    else normalize_loop repr (S idx) rest (cs ++ [l'])
           (ids ++ [id_text repr (get d "id")]) h1.
Proof.
  cbn [normalize_loop]. unfold mbind, M_bind, dict_copy, dict_pop, dict_keys.
  cbn zeta. rewrite !lookup_total_insert_eq, alter_insert_eq.
  rewrite lookup_total_insert_eq. fold (unknown_keys (h !!! l)).
  unfold get. by destruct (bool_decide _).
Qed.

Lemma fresh_loc_unused (h : heap) : h !! fresh (dom h) = None.
Proof. apply not_elem_of_dom, is_fresh. Qed.

(** One turn of the loop on a dict with integer keys: the copy is made,
    and the loop does not return. *)
Lemma normalize_loop_int_keys idx l k ks rest cs ids (h : heap) :
  normalize_loop repr idx (IntKeyedDictRef l k ks :: rest) cs ids h =
    (if bool_decide (unknown_keys (h !!! l) ≠ ∅) then Unmodelled
     else Raise (TypeError
            "sequence item 0: expected str instance, int found"),
     <[fresh (dom h) := delete "id" (h !!! l)]> h).
Proof.
  cbn [normalize_loop]. unfold mbind, M_bind, dict_copy, dict_pop, dict_keys.
  cbn zeta. rewrite ?lookup_total_insert_eq, alter_insert_eq.
  rewrite ?lookup_total_insert_eq. fold (unknown_keys (h !!! l)).
  by destruct (bool_decide _).
Qed.

(** The heap only grows: every dict object that existed before the loop
    is still there afterwards, with the same entries. *)
Lemma normalize_loop_frame elems : ∀ idx cs ids (h : heap),
  h ⊆ (normalize_loop repr idx elems cs ids h).2.
Proof.
  induction elems as [|[l| |l k ks] rest IH]; intros idx cs ids h;
    [done| |done|].
  - rewrite normalize_loop_cons. cbn zeta.
    pose proof (insert_subseteq h (fresh (dom h)) (delete "id" (h !!! l))
                  (fresh_loc_unused h)) as Hgrow.
    destruct (bool_decide _); [done|].
    etrans; [exact Hgrow|apply IH].
  - rewrite normalize_loop_int_keys. cbn.
    apply insert_subseteq, fresh_loc_unused.
Qed.

(** A reference that was live before the loop still reads the same dict
    in any later heap. *)
Lemma lookup_total_later (h0 h : heap) l :
  h0 ⊆ h → is_Some (h0 !! l) → h !!! l = h0 !!! l.
Proof.
  intros Hsub [d Hd]. rewrite (lookup_total_correct h0 l d Hd).
  apply lookup_total_correct. by eapply lookup_weaken.
Qed.


Lemma normalize_loop_ok (h0 : heap) elems : ∀ idx cs ids (h h' : heap) block,
  h0 ⊆ h →
  Forall (live h0) elems →
  normalize_loop repr idx elems cs ids h = (Ok block, h') →
  ∃ new_sets new_ids,
    case_sets block = cs ++ new_sets ∧
    case_ids block = ids ++ new_ids ∧
    Forall3 (normalized_as repr h0 h') elems new_sets new_ids.
Proof.
  induction elems as [|[l| |l k ks] rest IH];
    intros idx cs ids h h' block Hsub Hlive Hrun.
  - injection Hrun as <- <-. exists [], []. cbn.
    rewrite !app_nil_r. split_and!; [done|done|constructor].
  - apply Forall_cons in Hlive as [Hl Hlive]. cbn in Hl.
    apply bool_decide_unpack in Hl.
    rewrite normalize_loop_cons in Hrun. cbn zeta in Hrun.
    rewrite (lookup_total_later h0 h l Hsub Hl) in Hrun.
    destruct (bool_decide (unknown_keys (h0 !!! l) ≠ ∅)) eqn:Hunk; [done|].
    apply bool_decide_eq_false in Hunk.
    assert (unknown_keys (h0 !!! l) = ∅) as Hnone.
    { destruct (decide (unknown_keys (h0 !!! l) = ∅)); [done|]. by destruct Hunk. }
    pose proof (normalize_loop_frame rest (S idx) (cs ++ [fresh (dom h)])
      (ids ++ [id_text repr (get (h0 !!! l) "id")])
      (<[fresh (dom h) := delete "id" (h0 !!! l)]> h)) as Hframe.
    rewrite Hrun in Hframe. cbn in Hframe.
    eapply IH in Hrun as (new_sets & new_ids & Hsets & Hids & Hall); [|by etrans;
      [exact Hsub|apply insert_subseteq, fresh_loc_unused]|done].
    exists (fresh (dom h) :: new_sets),
      (id_text repr (get (h0 !!! l) "id") :: new_ids).
    rewrite Hsets, Hids, <-!app_assoc. split_and!; [done|done|].
    constructor; [|done]. exists l. split_and!; [done|done| |done].
    eapply lookup_weaken; [|exact Hframe]. apply lookup_insert_eq.
  - done.
  - rewrite normalize_loop_int_keys in Hrun. by destruct (bool_decide _).
Qed.

End normalize_facts.

(** ** The loop body *)

Lemma case_id_at_lookup (ids : list (option string)) idx :
  case_id_at ids idx = default None (ids !! idx).
Proof.
  unfold case_id_at. destruct (idx <? length ids) eqn:Hlt.
  - apply Nat.ltb_lt in Hlt. destruct (lookup_lt_is_Some_2 ids idx Hlt) as [x Hx].
    rewrite (list_lookup_total_correct ids idx x Hx), Hx.
    by destruct ids.
  - apply Nat.ltb_ge in Hlt. rewrite (lookup_ge_None_2 ids idx Hlt).
    by rewrite andb_false_r.
Qed.

(** A unit that the loop body returns, field by field. *)
Lemma eval_unit_inv s b ctx async ids idx (case : gmap string value) u :
  eval_unit s b ctx async ids idx case = Ok u →
  resolve_labels (if_settings s labels []) case = Ok (unit_labels u) ∧
  resolve_metadata (if_settings s (λ e, get (context_kwargs e) "metadata") VNone)
    case = Ok (unit_metadata u) ∧
  u = {| unit_func :=
           {| wrapper_name :=
                __name__ b +:+ "[" +:+ id_or_index (case_id_at ids idx) idx +:+ "]";
              takes_context := ctx; is_coroutine := async; forwards_to := b |};
         unit_dataset :=
           if contains case "dataset" then get case "dataset"
           else if_settings s dataset VNone;
         unit_labels := unit_labels u;
         unit_evaluators :=
           if contains case "evaluators" then
             if is_None (get case "evaluators") then VList []
             else get case "evaluators"
           else if_settings s evaluators VNone;
         unit_target :=
           if contains case "target" then get case "target"
           else if_settings s target VNone;
         unit_input :=
           if contains case "input" then get case "input"
           else if_settings s (λ e, get (context_kwargs e) "input") VNone;
         unit_reference :=
           if contains case "reference" then get case "reference"
           else if_settings s (λ e, get (context_kwargs e) "reference") VNone;
         unit_default_score_key :=
           if contains case "default_score_key" then get case "default_score_key"
           else if_settings s (λ e, get (context_kwargs e) "default_score_key") VNone;
         unit_metadata := unit_metadata u;
         unit_timeout :=
           if contains case "timeout" then get case "timeout"
           else if_settings s timeout VNone;
         unit_provided_labels :=
           if contains case "labels" then Assigned (VList [])
           else if_settings s (λ e, Assigned (_provided_labels e)) AsConstructed;
         unit_provided_evaluators :=
           if contains case "evaluators" then Assigned (VList [])
           else if_settings s (λ e, Assigned (_provided_evaluators e)) AsConstructed |}.
Proof.
  unfold eval_unit. cbn zeta.
  destruct (resolve_labels _ case) as [ls| |]; [|done..].
  destruct (resolve_metadata _ case) as [md| |]; [|done..].
  cbn. by intros [= <-].
Qed.

(** The loop body returns a unit as soon as the labels and the metadata
    resolve. *)
Lemma eval_unit_total s b ctx async ids idx (case : gmap string value) ls md :
  resolve_labels (if_settings s labels []) case = Ok ls →
  resolve_metadata (if_settings s (λ e, get (context_kwargs e) "metadata") VNone)
    case = Ok md →
  ∃ u, eval_unit s b ctx async ids idx case = Ok u.
Proof. intros Hls Hmd. unfold eval_unit. cbn zeta. rewrite Hls, Hmd. by eexists. Qed.

(** ** The settings merger *)

Lemma contains_Some (case : gmap string value) k v :
  case !! k = Some v → contains case k = true ∧ get case k = v.
Proof.
  intros Hk. unfold contains, get. rewrite Hk. split; [|done].
  by apply bool_decide_eq_true_2.
Qed.

Lemma contains_None (case : gmap string value) k :
  case !! k = None → contains case k = false.
Proof.
  intros Hk. unfold contains. rewrite Hk.
  apply bool_decide_eq_false_2. by intros [? ?].
Qed.

Lemma strs_fmap (ls : list string) : strs (VStr <$> ls) = Some ls.
Proof. induction ls as [|x ls IH]; [done|]. cbn. by rewrite IH. Qed.

(** Labels resolve whenever the override is typed. *)
Lemma resolve_labels_typed base (case : gmap string value) :
  labels_typed case → ∃ ls, resolve_labels base case = Ok ls.
Proof.
  unfold labels_typed, resolve_labels.
  destruct (case !! "labels") as [v|] eqn:Hv.
  - destruct (contains_Some case "labels" v Hv) as [-> ->].
    destruct v as [| | | |l| |]; try done; [by eexists|].
    intros [ls Hls]%bool_decide_unpack.
    destruct l as [|x l]; [by eexists|]. cbn -[strs].
    rewrite Hls. by eexists.
  - rewrite (contains_None case "labels" Hv). by eexists.
Qed.

Lemma merge_metadata_typed base override :
  mapping_or_None base → mapping_or_None override →
  ∃ md, _merge_metadata base override = Ok md.
Proof.
  destruct override as [| | | | |o|]; try done; [by eexists|].
  destruct base as [| | | | |b|]; try done; intros _ _; unfold _merge_metadata; cbn.
  - destruct (negb (size o =? 0)); cbn; by eexists.
  - destruct (negb (size b =? 0)), (negb (size o =? 0)); cbn; by eexists.
Qed.

(** Metadata resolves whenever the base and the override are typed. *)
Lemma resolve_metadata_typed base (case : gmap string value) :
  mapping_or_None base → metadata_typed case →
  ∃ md, resolve_metadata base case = Ok md.
Proof.
  unfold metadata_typed, resolve_metadata. intros Hbase.
  destruct (case !! "metadata") as [v|] eqn:Hv.
  - destruct (contains_Some case "metadata" v Hv) as [-> ->].
    by apply merge_metadata_typed.
  - rewrite (contains_None case "metadata" Hv). by eexists.
Qed.

(** Removing the [id] leaves the typing of a case as it was. *)
Lemma typed_delete_id (case : gmap string value) :
  labels_typed (delete "id" case) = labels_typed case ∧
  metadata_typed (delete "id" case) = metadata_typed case.
Proof.
  unfold labels_typed, metadata_typed.
  by rewrite !lookup_delete_ne by done.
Qed.

(** ** The loop of [generate_eval_functions] *)

Section generate_facts.
  Context (h : heap) (s : option EvalFunction) (b : PyFunction)
    (ctx async : bool) (ids : list (option string)).

(** The units come out one per case and in the order of the table. *)
Lemma generate_loop_inv sets : ∀ idx acc res,
  generate_loop h s b ctx async ids idx sets acc = Ok res →
  ∃ units,
    res = acc ++ units ∧
    length units = length sets ∧
    ∀ i l, sets !! i = Some l →
      ∃ u, units !! i = Some u ∧
           eval_unit s b ctx async ids (idx + i) (h !!! l) = Ok u.
Proof.
  induction sets as [|l sets IH]; intros idx acc res Hrun; cbn in Hrun.
  { injection Hrun as <-. exists []. by rewrite app_nil_r. }
  destruct (eval_unit s b ctx async ids idx (h !!! l)) as [u| |] eqn:Hu;
    [|done..].
  cbn in Hrun. apply IH in Hrun as (units & -> & Hlen & Hall).
  exists (u :: units). rewrite <-app_assoc. split_and!; [done|by cbn; rewrite Hlen|].
  intros [|i] l' Hl'; simplify_eq/=.
  - exists u. by rewrite Nat.add_0_r.
  - destruct (Hall i l' Hl') as (u' & ? & ?). exists u'.
    by rewrite <-Nat.add_succ_comm.
Qed.

(** The loop returns as soon as its body does on every case. *)
Lemma generate_loop_total sets : ∀ idx acc,
  (∀ i l, sets !! i = Some l →
     ∃ u, eval_unit s b ctx async ids (idx + i) (h !!! l) = Ok u) →
  ∃ res, generate_loop h s b ctx async ids idx sets acc = Ok res.
Proof.
  induction sets as [|l sets IH]; intros idx acc Hall; cbn; [by eexists|].
  destruct (Hall 0 l eq_refl) as [u Hu]. rewrite Nat.add_0_r in Hu.
  rewrite Hu. cbn. apply IH. intros i l' Hl'.
  rewrite Nat.add_succ_comm. by apply (Hall (S i)).
Qed.

End generate_facts.

(** ** Expansion *)

Lemma generate_eval_functions_unfold fn (h : heap) :
  generate_eval_functions fn h =
    attrs ← find_case_attrs fn (base_func_of fn);
    match attrs with
    | None =>
        Raise (ValueError ("Function " +:+ __name__ (base_func_of fn)
                           +:+ " does not have __case_sets__ attribute"))
    | Some (sets, ids) =>
        generate_loop h (eval_settings_of fn) (base_func_of fn)
          (has_context_of fn) (iscoroutinefunction (base_func_of fn)) ids
          0 sets []
    end.
Proof. by destruct fn. Qed.

(** Every unit that [generate_eval_functions] returns is what the loop
    body makes of the case at the same position of the table it found. *)
Lemma generate_units fn (h : heap) units :
  generate_eval_functions fn h = Ok units →
  ∃ sets ids,
    find_case_attrs fn (base_func_of fn) = Ok (Some (sets, ids)) ∧
    length units = length sets ∧
    ∀ i l, sets !! i = Some l →
      ∃ u, units !! i = Some u ∧
           eval_unit (eval_settings_of fn) (base_func_of fn) (has_context_of fn)
             (iscoroutinefunction (base_func_of fn)) ids i (h !!! l) = Ok u.
Proof.
  rewrite generate_eval_functions_unfold.
  destruct (find_case_attrs fn (base_func_of fn)) as [[[sets ids]|]| |];
    [|done..].
  cbn. intros (us & -> & Hlen & Hall)%generate_loop_inv.
  exists sets, ids. split_and!; done.
Qed.

(** A function without a case table is not expanded. *)
Lemma generate_unmarked fn (h : heap) :
  unmarked fn →
  generate_eval_functions fn h =
    Raise (ValueError ("Function " +:+ __name__ (base_func_of fn)
                       +:+ " does not have __case_sets__ attribute")).
Proof.
  rewrite generate_eval_functions_unfold. unfold find_case_attrs.
  destruct fn as [f|e]; cbn.
  - intros ->%bool_decide_unpack. done.
  - intros [->%bool_decide_unpack ->%bool_decide_unpack]%andb_prop_elim. done.
Qed.

Lemma find_case_attrs_attached fn block :
  no_inner_table fn →
  find_case_attrs (set_case_attrs fn block)
    (base_func_of (set_case_attrs fn block)) =
  Ok (Some (case_sets block, case_ids block)).
Proof.
  destruct fn as [f|e]; [done|]. cbn.
  intros Hnone%bool_decide_unpack. unfold find_case_attrs. cbn. by rewrite Hnone.
Qed.

Section expand_facts.
  Context (repr : value → string).

Lemma normalize_cases_seq elems (h : heap) :
  normalize_cases repr (CasesSeq elems) h =
    match normalize_loop repr 0 elems [] [] h with
    | (Ok block, h') => (Ok (Some block), h')
    | (Raise e, h') => (Raise e, h')
    | (Unmodelled, h') => (Unmodelled, h')
    end.
Proof. done. Qed.

Lemma normalize_cases_ok elems (h h' : heap) block :
  Forall (live h) elems →
  normalize_cases repr (CasesSeq elems) h = (Ok (Some block), h') →
  Forall3 (normalized_as repr h h') elems (case_sets block) (case_ids block).
Proof.
  intros Hlive. rewrite normalize_cases_seq.
  destruct (normalize_loop repr 0 elems [] [] h) as [[block'| |] h1] eqn:Hrun;
    [|done..].
  intros [= <- <-].
  by destruct (normalize_loop_ok repr h elems 0 [] [] h h1 block')
    as (new_sets & new_ids & -> & -> & Hall).
Qed.

Lemma apply_cases_ok fn cases (h h' : heap) block :
  normalize_cases repr cases h = (Ok (Some block), h') →
  apply_cases repr fn cases h = (Ok (set_case_attrs fn block), h').
Proof. intros Hrun. unfold apply_cases, mbind, M_bind. by rewrite Hrun. Qed.

Lemma apply_cases_raise fn cases (h : heap) e :
  (normalize_cases repr cases h).1 = Raise e →
  (apply_cases repr fn cases h).1 = Raise e.
Proof.
  unfold apply_cases, mbind, M_bind.
  destruct (normalize_cases repr cases h) as [[[?|]| |] ?]; cbn; [done..| |done].
  by intros [= ->].
Qed.

(** A declaration that normalises and is typed is attached by
    [apply_cases] and then expands into one unit per element, the unit at
    position [i] being the loop body at [i] on the [i]-th case without
    its [id]. *)
Lemma expand_units fn elems (h h' : heap) block :
  Forall (live h) elems →
  no_inner_table fn →
  normalize_cases repr (CasesSeq elems) h = (Ok (Some block), h') →
  base_metadata_typed fn →
  Forall (case_typed h) elems →
  case_ids block = declared_id repr h <$> elems ∧
  apply_cases repr fn (CasesSeq elems) h = (Ok (set_case_attrs fn block), h') ∧
  ∃ units,
    generate_eval_functions (set_case_attrs fn block) h' = Ok units ∧
    length units = length elems ∧
    ∀ i l, elems !! i = Some (DictRef l) →
      ∃ u, units !! i = Some u ∧
           eval_unit (eval_settings_of fn)
             (base_func_of (set_case_attrs fn block)) (has_context_of fn)
             (iscoroutinefunction (base_func_of fn)) (case_ids block) i
             (delete "id" (h !!! l)) = Ok u.
Proof.
  intros Hlive Hinner Hnorm Hbase Htyped.
  pose proof (normalize_cases_ok elems h h' block Hlive Hnorm) as Hall.
  assert (case_ids block = declared_id repr h <$> elems) as Hids.
  { clear -Hall. induction Hall as [|e l' i es ls is_ (l & -> & _ & _ & ->) _ IH];
      [done|]. cbn. by rewrite IH. }
  split; [done|]. split; [by apply apply_cases_ok|].
  rewrite generate_eval_functions_unfold, find_case_attrs_attached by done.
  cbn.
  set (fn' := set_case_attrs fn block).
  destruct (generate_loop_total h' (eval_settings_of fn') (base_func_of fn')
    (has_context_of fn') (iscoroutinefunction (base_func_of fn'))
    (case_ids block) (case_sets block) 0 []) as [units Hunits].
  { intros i l' Hl'.
    destruct (Forall3_lookup_m _ _ _ _ _ _ Hall Hl')
      as (e & id & He & Hid & (l & -> & _ & Hcopy & _)).
    rewrite (lookup_total_correct h' l' _ Hcopy).
    pose proof (Forall_lookup_1 _ _ _ _ Htyped He) as Ht. cbn in Ht.
    apply andb_prop_elim in Ht as [Hlab Hmd].
    destruct (typed_delete_id (h !!! l)) as [Hl1 Hl2].
    rewrite <-Hl1 in Hlab. rewrite <-Hl2 in Hmd.
    destruct (resolve_labels_typed
      (if_settings (eval_settings_of fn') labels []) _ Hlab) as [ls Hls].
    destruct (resolve_metadata_typed
      (if_settings (eval_settings_of fn')
         (λ e, get (context_kwargs e) "metadata") VNone)
      (delete "id" (h !!! l))) as [md Hmd'];
      [|exact Hmd|].
    { subst fn'. destruct fn; [exact I|exact Hbase]. }
    by eapply eval_unit_total. }
  exists units. split; [by rewrite <-Hunits; destruct fn|].
  apply generate_loop_inv in Hunits as (us & -> & Hlen & Hus). cbn.
  split.
  { rewrite Hlen. symmetry. by eapply Forall3_length_lm. }
  intros i l Hl.
  destruct (Forall3_lookup_l _ _ _ _ _ _ Hall Hl)
    as (l' & id & Hl' & Hid & (l0 & [= <-] & _ & Hcopy & _)).
  destruct (Hus i l' Hl') as (u & Hu & Hunit). exists u. split; [done|].
  rewrite (lookup_total_correct h' l' _ Hcopy) in Hunit. cbn in Hunit.
  subst fn'. by destruct fn.
Qed.

End expand_facts.

(** * The claims *)




(** The message of the example, written out. *)
Example unknown_key_message :
  (normalize_cases repr_stub (CasesSeq [DictRef 1; DictRef 2]) heap_unknown).1
  = Raise (ValueError "Unknown case keys: alpha, zeta").
Proof. vm_compute. reflexivity. Qed.


(** C10. Normalisation leaves the caller's declaration as it was: a dict
    object that exists before [normalize_cases] runs has the same entries
    afterwards, whether the call returns or raises; the [id] is popped
    from a copy made by the loop. *)
Theorem normalize_cases_keeps_caller_dicts
    repr cases (h : heap) l (d : gmap string value) :
  h !! l = Some d →
  (normalize_cases repr cases h).2 !! l = Some d.
Proof.
  intros Hl. destruct cases as [|elems|]; [done| |done].
  rewrite normalize_cases_seq.
  pose proof (normalize_loop_frame repr elems 0 [] [] h) as Hframe.
  destruct (normalize_loop repr 0 elems [] [] h) as [[?| |] h']; cbn in *;
    by eapply lookup_weaken.
Qed.

Lemma normalize_cases_keeps_caller_dicts_witness :
  (normalize_cases repr_stub (CasesSeq [DictRef 1; DictRef 2]) heap_ab).2 !! 1
  = Some {[ "id" := VStr "a"; "input" := VStr "x" ]}.
Proof.
  apply (normalize_cases_keeps_caller_dicts repr_stub
           (CasesSeq [DictRef 1; DictRef 2]) heap_ab 1).
  vm_compute. reflexivity.
Defined.

(** C8. Expanding a function that carries no case table raises the
    [ValueError] that names the function; no list of units is returned. *)
Theorem generate_without_table_raises fn (h : heap) :
  unmarked fn →
  generate_eval_functions fn h =
    Raise (ValueError ("Function " +:+ __name__ (base_func_of fn)
                       +:+ " does not have __case_sets__ attribute")).
Proof. apply generate_unmarked. Qed.

Lemma generate_without_table_raises_witness :
  generate_eval_functions (Decorated base_prod) heap_ab =
    Raise (ValueError "Function f does not have __case_sets__ attribute").
Proof.
  apply (generate_without_table_raises (Decorated base_prod) heap_ab).
  vm_compute. exact I.
Defined.

(** C9. When two runs of a session, filed under different run ids, both
    have the queried name, [resolve] raises [AmbiguousNameError] for the
    session and the name, whether or not the run is required. *)
Theorem resolve_ambiguous
    (st : store) session name required id1 id2 (r1 r2 : RunRecord) :
  id1 ≠ id2 →
  (st !!! session) !! id1 = Some r1 →
  (st !!! session) !! id2 = Some r2 →
  run_name r1 = name →
  run_name r2 = name →
  resolve st session name required = Raise (AmbiguousNameError session name).
Proof.
  intros Hne H1 H2 Hn1 Hn2. unfold resolve.
  set (m := matching_runs st session name).
  assert (m !! id1 = Some r1) as Hm1 by by apply map_lookup_filter_Some.
  assert (m !! id2 = Some r2) as Hm2 by by apply map_lookup_filter_Some.
  assert (2 ≤ length (map_to_list m)) as Hlen.
  { rewrite length_map_to_list, <-(insert_delete_id m id1 r1 Hm1).
    rewrite map_size_insert_None by apply lookup_delete_eq.
    assert (delete id1 m !! id2 = Some r2) as Hd
      by by rewrite lookup_delete_ne.
    rewrite <-(insert_delete_id _ id2 r2 Hd).
    rewrite map_size_insert_None by apply lookup_delete_eq. lia. }
  destruct (map_to_list m) as [|[k r] [|p rest]]; cbn in Hlen; [lia..|done].
Qed.

Lemma resolve_ambiguous_witness :
  resolve store_ambiguous "s1" "baseline" true
  = Raise (AmbiguousNameError "s1" "baseline").
Proof.
  apply (resolve_ambiguous store_ambiguous "s1" "baseline" true
           "run001" "run002"
           {| run_id := "run001"; session_name := "s1";
              run_name := "baseline"; summary := VNone |}
           {| run_id := "run002"; session_name := "s1";
              run_name := "baseline"; summary := VNone |}).
  - by intros [=].
  - vm_compute. reflexivity.
  - vm_compute. reflexivity.
  - reflexivity.
  - reflexivity.
Defined.

(** ** Labels *)

Lemma filter_not_in_snoc (acc ls : list string) x :
  x ∉ ls →
  filter (λ l, l ∉ acc ++ [x]) ls = filter (λ l, l ∉ acc) ls.
Proof.
  induction ls as [|y ls IH]; [done|].
  intros [Hxy Hx]%not_elem_of_cons. rewrite !filter_cons, IH by done.
  destruct (decide (y ∉ acc ++ [x])) as [Hy|Hy], (decide (y ∉ acc)) as [Hy'|Hy'];
    try done.
  - destruct Hy'. intros ?. apply Hy, elem_of_app. by left.
  - destruct Hy. intros [?|Hyx%list_elem_of_singleton]%elem_of_app; [done|].
    by subst.
Qed.

(** Without repeated labels in the override the code computes the
    ordered union. *)
Lemma merge_labels_ordered_union (ls : list string) : ∀ base,
  NoDup ls →
  base ++ filter (λ l, l ∉ base) ls = ordered_union base ls.
Proof.
  unfold ordered_union.
  induction ls as [|x ls IH]; intros base Hnd; cbn [fold_left].
  { by rewrite app_nil_r. }
  apply NoDup_cons in Hnd as [Hx Hnd]. rewrite filter_cons.
  destruct (decide (x ∈ base)) as [Hin|Hout].
  - rewrite decide_False by (by intros []). by apply IH.
  - rewrite decide_True by done. rewrite <-IH by done.
    rewrite filter_not_in_snoc by done. by rewrite <-app_assoc.
Qed.

(** It is enough that no label outside the base is repeated. *)
Lemma merge_labels_ordered_union_filter (ls : list string) : ∀ base,
  NoDup (filter (λ l, l ∉ base) ls) →
  base ++ filter (λ l, l ∉ base) ls = ordered_union base ls.
Proof.
  unfold ordered_union.
  induction ls as [|x ls IH]; intros base Hnd; cbn [fold_left].
  { by rewrite app_nil_r. }
  rewrite filter_cons in Hnd |- *.
  destruct (decide (x ∈ base)) as [Hin|Hout].
  - rewrite decide_False in Hnd |- * by (by intros []). by apply IH.
  - rewrite decide_True in Hnd |- * by done.
    apply NoDup_cons in Hnd as [Hx Hnd].
    assert (x ∉ ls) as Hls.
    { intros Hin. apply Hx, list_elem_of_filter. by split. }
    rewrite <-IH by (by rewrite filter_not_in_snoc).
    rewrite filter_not_in_snoc by done. by rewrite <-app_assoc.
Qed.

(** Whatever the override, the ordered union adds to the base labels a
    list without repetition. *)
Lemma ordered_union_adds_NoDup (ls : list string) : ∀ base added,
  NoDup added →
  ∃ added', ordered_union (base ++ added) ls = base ++ added' ∧ NoDup added'.
Proof.
  unfold ordered_union.
  induction ls as [|x ls IH]; intros base added Hnd; cbn [fold_left].
  { by exists added. }
  destruct (decide (x ∈ base ++ added)) as [Hin|Hout]; [by apply IH|].
  rewrite <-app_assoc. apply IH. apply NoDup_app. split_and!; [done| |].
  - intros y Hy ->%list_elem_of_singleton. apply Hout, elem_of_app. by right.
  - apply NoDup_singleton.
Qed.

(** The code computes the ordered union exactly when no label outside
    the base occurs twice in the override. *)
Lemma merge_labels_ordered_union_iff (base ls : list string) :
  base ++ filter (λ l, l ∉ base) ls = ordered_union base ls ↔
  NoDup (filter (λ l, l ∉ base) ls).
Proof.
  split; [|apply merge_labels_ordered_union_filter].
  intros Heq.
  destruct (ordered_union_adds_NoDup ls base []) as (added & Hadd & Hnd).
  { apply NoDup_nil_2. }
  rewrite app_nil_r in Hadd. rewrite Hadd in Heq.
  by apply app_inv_head in Heq as ->.
Qed.

Lemma resolve_labels_list base (case : gmap string value) (ls : list string) :
  case !! "labels" = Some (VList (VStr <$> ls)) →
  ls ≠ [] →
  resolve_labels base case = Ok (base ++ filter (λ l, l ∉ base) ls).
Proof.
  intros Hl Hne. unfold resolve_labels.
  destruct (contains_Some case "labels" _ Hl) as [-> ->].
  destruct ls as [|x ls]; [done|]. cbn -[strs].
  change (VStr x :: (VStr <$> ls)) with (VStr <$> x :: ls).
  by rewrite strs_fmap.
Qed.

(** C2, as the code has it. With [base] the labels of the base
    specification: a case without the key [labels] inherits [base]; a case
    whose [labels] is [None] or the empty list gets the empty list;
    any other list of strings gives [base] followed by those of its
    labels that are not in [base], in their order, each as often as it
    occurs. A label is in the result exactly when it is a base label or
    an override label. The result is the ordered union exactly when no
    label outside [base] occurs twice in the override, and so whenever
    the override has no repeated label. The labels of a unit are the
    labels so resolved. *)
Theorem merged_labels (s : option EvalFunction) (case : gmap string value) :
  let base := if_settings s labels [] in
  (case !! "labels" = None → resolve_labels base case = Ok base) ∧
  (∀ v, case !! "labels" = Some v → v = VNone ∨ v = VList [] →
     resolve_labels base case = Ok []) ∧
  (∀ ls, case !! "labels" = Some (VList (VStr <$> ls)) → ls ≠ [] →
     let merged := base ++ filter (λ l, l ∉ base) ls in
     resolve_labels base case = Ok merged ∧
     (∀ x, x ∈ merged ↔ x ∈ base ∨ x ∈ ls) ∧
     (NoDup ls → merged = ordered_union base ls) ∧
     (merged = ordered_union base ls ↔ NoDup (filter (λ l, l ∉ base) ls))) ∧
  (∀ b ctx async ids idx u,
     eval_unit s b ctx async ids idx case = Ok u →
     resolve_labels base case = Ok (unit_labels u)).
Proof.
  intros base. split_and!.
  - intros Hl. unfold resolve_labels. by rewrite (contains_None case "labels" Hl).
  - intros v Hl Hv. unfold resolve_labels.
    destruct (contains_Some case "labels" v Hl) as [-> ->].
    by destruct Hv as [-> | ->].
  - intros ls Hl Hne merged. split_and!.
    + by apply resolve_labels_list.
    + intros x. unfold merged. rewrite elem_of_app, list_elem_of_filter.
      destruct (decide (x ∈ base)); tauto.
    + apply merge_labels_ordered_union.
    + apply merge_labels_ordered_union_iff.
  - intros b ctx async ids idx u Hu. by apply eval_unit_inv in Hu as (? & _).
Qed.

Lemma merged_labels_witness :
  resolve_labels ["a"; "b"] {[ "labels" := VList [VStr "a"; VStr "y"] ]}
  = Ok ["a"; "b"; "y"].
Proof.
  destruct (merged_labels
    (Some {| func := plain_f; dataset := VNone; labels := ["a"; "b"];
             evaluators := VNone; target := VNone; timeout := VNone;
             context_kwargs := ∅; context_param := None;
             _provided_labels := VNone; _provided_evaluators := VNone;
             wrapper_case_sets := None; wrapper_case_ids := None |})
    {[ "labels" := VList [VStr "a"; VStr "y"] ]}) as (_ & _ & Hlist & _).
  destruct (Hlist ["a"; "y"]) as [Hres _]; [done..|]. exact Hres.
Defined.

(** C2 as stated fails: with base labels [["a"]] and the override
    [["x", "x"]] the code returns [["a", "x", "x"]], in which the
    duplicate is not removed; the ordered union is [["a", "x"]]. *)
Lemma labels_duplicates_kept :
  resolve_labels ["a"] {[ "labels" := VList [VStr "x"; VStr "x"] ]}
    = Ok ["a"; "x"; "x"] ∧
  ordered_union ["a"] ["x"; "x"] = ["a"; "x"] ∧
  ¬ NoDup ["a"; "x"; "x"] ∧
  resolve_labels ["a"] {[ "labels" := VList [VStr "x"; VStr "x"] ]}
    ≠ Ok (ordered_union ["a"] ["x"; "x"]).
Proof.
  assert (resolve_labels ["a"] {[ "labels" := VList [VStr "x"; VStr "x"] ]}
          = Ok ["a"; "x"; "x"]) as Hres by (by vm_compute).
  split_and!; [done|by vm_compute| |].
  - intros Hnd. apply NoDup_cons in Hnd as [_ Hnd].
    apply NoDup_cons in Hnd as [Hx _]. apply Hx. by left.
  - rewrite Hres. by vm_compute.
Qed.

(** ** Metadata *)

Lemma size_eqb_empty (m : gmap string value) : (size m =? 0) = true → m = ∅.
Proof. intros ?%Nat.eqb_eq. by apply map_size_empty_iff. Qed.

Lemma merge_metadata_dict base (o : gmap string value) :
  mapping_or_None base →
  _merge_metadata base (VDict o) =
    Ok (if size (shallow_merge base o) =? 0 then VNone
        else VDict (shallow_merge base o)).
Proof.
  intros Hbase. unfold _merge_metadata, shallow_merge. cbn [is_None].
  assert ((if truthy base then dict_update ∅ base else Ok ∅)
          = Ok (base_mapping base)) as ->.
  { destruct base as [| | | | |b|]; try done. cbn.
    destruct (size b =? 0) eqn:Hb; cbn.
    - by rewrite (size_eqb_empty b Hb).
    - by rewrite (right_id_L ∅ (∪)). }
  cbn [mbind outcome_bind].
  assert ((if truthy (VDict o) then dict_update (base_mapping base) (VDict o)
           else Ok (base_mapping base)) = Ok (o ∪ base_mapping base)) as ->.
  { cbn. destruct (size o =? 0) eqn:Ho; cbn; [|done].
    by rewrite (size_eqb_empty o Ho), (left_id_L ∅ (∪)). }
  cbn. by destruct (size (o ∪ base_mapping base) =? 0).
Qed.

(** C3, as the code has it. With [base] the metadata of the base
    specification, a mapping or [None]: a case without the key [metadata]
    inherits [base]; a case whose [metadata] is [None] gets [None]; a case
    whose [metadata] is a mapping gets the shallow merge of the base
    mapping (empty if the base has none) and the override, unless that
    merge is empty, in which case it gets [None]. The metadata of a unit
    is the metadata so resolved. *)
Theorem merged_metadata (s : option EvalFunction) (case : gmap string value) :
  let base := if_settings s (λ e, get (context_kwargs e) "metadata") VNone in
  (case !! "metadata" = None → resolve_metadata base case = Ok base) ∧
  (case !! "metadata" = Some VNone → resolve_metadata base case = Ok VNone) ∧
  (∀ o, case !! "metadata" = Some (VDict o) → mapping_or_None base →
     (shallow_merge base o ≠ ∅ →
        resolve_metadata base case = Ok (VDict (shallow_merge base o))) ∧
     (shallow_merge base o = ∅ → resolve_metadata base case = Ok VNone)) ∧
  (∀ b ctx async ids idx u,
     eval_unit s b ctx async ids idx case = Ok u →
     resolve_metadata base case = Ok (unit_metadata u)).
Proof.
  intros base. split_and!.
  - intros Hm. unfold resolve_metadata.
    by rewrite (contains_None case "metadata" Hm).
  - intros Hm. unfold resolve_metadata.
    by destruct (contains_Some case "metadata" _ Hm) as [-> ->].
  - intros o Hm Hbase. unfold resolve_metadata.
    destruct (contains_Some case "metadata" _ Hm) as [-> ->].
    rewrite merge_metadata_dict by done. split.
    + intros Hne%map_size_non_empty_iff.
      by destruct (size (shallow_merge base o)).
    + by intros ->.
  - intros b ctx async ids idx u Hu.
    by apply eval_unit_inv in Hu as (_ & ? & _).
Qed.

Lemma merged_metadata_witness :
  resolve_metadata (VDict {[ "j" := VInt 0 ]})
    {[ "metadata" := VDict {[ "k" := VInt 1 ]} ]}
  = Ok (VDict (shallow_merge (VDict {[ "j" := VInt 0 ]}) {[ "k" := VInt 1 ]})).
Proof.
  destruct (merged_metadata (Some base_prod)
              {[ "metadata" := VDict {[ "k" := VInt 1 ]} ]})
    as (_ & _ & Hdict & _).
  destruct (Hdict {[ "k" := VInt 1 ]}) as [Hres _]; [done|exact I|].
  apply Hres. intros Hempty.
  apply (f_equal (λ m : gmap string value, size m)) in Hempty.
  vm_compute in Hempty. discriminate.
Defined.

(** The two examples of the specification, and its merge written out. *)
Example metadata_example :
  shallow_merge (VDict {[ "j" := VInt 0 ]}) {[ "k" := VInt 1 ]}
  = {[ "j" := VInt 0; "k" := VInt 1 ]}.
Proof. by vm_compute. Qed.

(** C3 as stated fails: with no base metadata and the override [{}] the
    shallow merge is the empty mapping, and the code returns [None]. *)
Lemma empty_metadata_is_None :
  resolve_metadata VNone {[ "metadata" := VDict ∅ ]} = Ok VNone ∧
  shallow_merge VNone ∅ = ∅ ∧
  resolve_metadata VNone {[ "metadata" := VDict ∅ ]}
    ≠ Ok (VDict (shallow_merge VNone ∅)).
Proof.
  assert (resolve_metadata VNone {[ "metadata" := VDict ∅ ]} = Ok VNone)
    as Hres by (by vm_compute).
  split_and!; [done|by vm_compute|]. by rewrite Hres.
Qed.

(** ** Units and their cases *)

(** A unit at position [i] of the result comes from the case at position
    [i] of the table. *)
Lemma unit_of_case fn (h : heap) units i u :
  generate_eval_functions fn h = Ok units →
  units !! i = Some u →
  ∃ l, case_table fn !! i = Some l ∧
       eval_unit (eval_settings_of fn) (base_func_of fn) (has_context_of fn)
         (iscoroutinefunction (base_func_of fn)) (id_column fn) i (h !!! l)
       = Ok u.
Proof.
  intros (sets & ids & Hattrs & Hlen & Hall)%generate_units Hu.
  unfold case_table, id_column. rewrite Hattrs.
  destruct (lookup_lt_is_Some_2 sets i) as [l Hl].
  { rewrite <-Hlen. by eapply lookup_lt_Some. }
  exists l. split; [done|].
  destruct (Hall i l Hl) as (u' & Hu' & Hunit). by simplify_eq.
Qed.

Lemma overridden_intro (case : gmap string value) k base :
  overridden case k base (if contains case k then get case k else base).
Proof.
  unfold overridden. destruct (case !! k) as [x|] eqn:Hk.
  - by destruct (contains_Some case k x Hk) as [-> ->].
  - by rewrite (contains_None case k Hk).
Qed.

(** C4. For each of dataset, target, input, reference, default_score_key
    and timeout, a unit produced for a decorated function carries the
    entry of its case under that key when the case has one, whatever the
    value and [None] included, and the value of the base specification
    when the case has none. *)
Theorem scalar_fields_override_or_inherit e (h : heap) units i u :
  generate_eval_functions (Decorated e) h = Ok units →
  units !! i = Some u →
  ∃ l, case_table (Decorated e) !! i = Some l ∧
    let case := h !!! l in
    overridden case "dataset" (dataset e) (unit_dataset u) ∧
    overridden case "target" (target e) (unit_target u) ∧
    overridden case "input" (get (context_kwargs e) "input") (unit_input u) ∧
    overridden case "reference" (get (context_kwargs e) "reference")
      (unit_reference u) ∧
    overridden case "default_score_key"
      (get (context_kwargs e) "default_score_key") (unit_default_score_key u) ∧
    overridden case "timeout" (timeout e) (unit_timeout u).
Proof.
  intros Hgen Hu. destruct (unit_of_case _ _ _ _ _ Hgen Hu) as (l & Hl & Hunit).
  exists l. split; [done|]. cbn zeta.
  apply eval_unit_inv in Hunit as (_ & _ & ->). cbn.
  split_and!; apply overridden_intro.
Qed.

(** C7. A unit produced for a decorated function has both provenance
    attributes assigned: to the empty list when its case has the key
    [labels] (respectively [evaluators]), and to the attribute of the
    base specification otherwise. *)
Theorem provenance_flags e (h : heap) units i u :
  generate_eval_functions (Decorated e) h = Ok units →
  units !! i = Some u →
  ∃ l, case_table (Decorated e) !! i = Some l ∧
    let case := h !!! l in
    unit_provided_labels u =
      (if contains case "labels" then Assigned (VList [])
       else Assigned (_provided_labels e)) ∧
    unit_provided_evaluators u =
      (if contains case "evaluators" then Assigned (VList [])
       else Assigned (_provided_evaluators e)).
Proof.
  intros Hgen Hu. destruct (unit_of_case _ _ _ _ _ Hgen Hu) as (l & Hl & Hunit).
  exists l. split; [done|]. cbn zeta.
  by apply eval_unit_inv in Hunit as (_ & _ & ->).
Qed.

(** The end-to-end example of the specification. *)
Example apply_cases_ab :
  apply_cases repr_stub (Decorated base_prod) (CasesSeq [DictRef 1; DictRef 2])
    heap_ab
  = (Ok (Decorated base_prod_ab), heap_ab_normalized).
Proof. by vm_compute. Qed.

Example generate_ab :
  generate_eval_functions (Decorated base_prod_ab) heap_ab_normalized
  = Ok [unit_a; unit_b].
Proof. by vm_compute. Qed.

Lemma scalar_fields_override_or_inherit_witness :
  ∃ l, case_table (Decorated base_prod_ab) !! 1 = Some l ∧
    let case := heap_ab_normalized !!! l in
    overridden case "dataset" (dataset base_prod_ab) (unit_dataset unit_b) ∧
    overridden case "target" (target base_prod_ab) (unit_target unit_b) ∧
    overridden case "input" (get (context_kwargs base_prod_ab) "input")
      (unit_input unit_b) ∧
    overridden case "reference" (get (context_kwargs base_prod_ab) "reference")
      (unit_reference unit_b) ∧
    overridden case "default_score_key"
      (get (context_kwargs base_prod_ab) "default_score_key")
      (unit_default_score_key unit_b) ∧
    overridden case "timeout" (timeout base_prod_ab) (unit_timeout unit_b).
Proof.
  apply (scalar_fields_override_or_inherit base_prod_ab heap_ab_normalized
           [unit_a; unit_b] 1 unit_b).
  - vm_compute. reflexivity.
  - reflexivity.
Defined.

Lemma provenance_flags_witness :
  ∃ l, case_table (Decorated base_prod_ab) !! 1 = Some l ∧
    let case := heap_ab_normalized !!! l in
    unit_provided_labels unit_b =
      (if contains case "labels" then Assigned (VList [])
       else Assigned (_provided_labels base_prod_ab)) ∧
    unit_provided_evaluators unit_b =
      (if contains case "evaluators" then Assigned (VList [])
       else Assigned (_provided_evaluators base_prod_ab)).
Proof.
  apply (provenance_flags base_prod_ab heap_ab_normalized
           [unit_a; unit_b] 1 unit_b).
  - vm_compute. reflexivity.
  - reflexivity.
Defined.

(** ** Length, order and names *)

(** C5, as the code has it. A declaration that normalises, in which every
    [labels] override is [None] or a list of strings and every [metadata]
    override is [None] or a mapping, is attached by [apply_cases] to a
    function whose base metadata is [None] or a mapping, and
    [generate_eval_functions] then returns exactly one unit per case, in
    the order of the declaration: the unit at position [i] is the loop
    body at index [i] on the [i]-th case without its [id]. *)
Theorem expansion_one_unit_per_case
    repr fn elems (h h' : heap) block :
  Forall (live h) elems →
  no_inner_table fn →
  base_metadata_typed fn →
  Forall (case_typed h) elems →
  normalize_cases repr (CasesSeq elems) h = (Ok (Some block), h') →
  apply_cases repr fn (CasesSeq elems) h = (Ok (set_case_attrs fn block), h') ∧
  ∃ units,
    generate_eval_functions (set_case_attrs fn block) h' = Ok units ∧
    length units = length elems ∧
    ∀ i l, elems !! i = Some (DictRef l) →
      ∃ u, units !! i = Some u ∧
           eval_unit (eval_settings_of fn)
             (base_func_of (set_case_attrs fn block)) (has_context_of fn)
             (iscoroutinefunction (base_func_of fn))
             (declared_id repr h <$> elems) i (delete "id" (h !!! l)) = Ok u.
Proof.
  intros Hlive Hinner Hbase Htyped Hnorm.
  destruct (expand_units repr fn elems h h' block)
    as (Hids & Happly & units & Hexp & Hlen & Hall); [done..|].
  split; [done|]. exists units. rewrite <-Hids. by split_and!.
Qed.

Lemma expansion_one_unit_per_case_witness :
  apply_cases repr_stub (Decorated base_prod) (CasesSeq [DictRef 1; DictRef 2])
    heap_ab
  = (Ok (set_case_attrs (Decorated base_prod)
           {| case_sets := [3; 4]; case_ids := [Some "a"; Some "b"] |}),
     heap_ab_normalized) ∧
  ∃ units,
    generate_eval_functions
      (set_case_attrs (Decorated base_prod)
         {| case_sets := [3; 4]; case_ids := [Some "a"; Some "b"] |})
      heap_ab_normalized = Ok units ∧
    length units = length [DictRef 1; DictRef 2] ∧
    ∀ i l, [DictRef 1; DictRef 2] !! i = Some (DictRef l) →
      ∃ u, units !! i = Some u ∧
           eval_unit (eval_settings_of (Decorated base_prod))
             (base_func_of (set_case_attrs (Decorated base_prod)
                {| case_sets := [3; 4]; case_ids := [Some "a"; Some "b"] |}))
             (has_context_of (Decorated base_prod))
             (iscoroutinefunction (base_func_of (Decorated base_prod)))
             (declared_id repr_stub heap_ab <$> [DictRef 1; DictRef 2]) i
             (delete "id" (heap_ab !!! l)) = Ok u.
Proof.
  apply (expansion_one_unit_per_case repr_stub (Decorated base_prod)
           [DictRef 1; DictRef 2] heap_ab heap_ab_normalized
           {| case_sets := [3; 4]; case_ids := [Some "a"; Some "b"] |}).
  - apply (bool_decide_unpack _). vm_compute. exact I.
  - vm_compute. exact I.
  - vm_compute. exact I.
  - apply (bool_decide_unpack _). vm_compute. exact I.
  - vm_compute. reflexivity.
Defined.

(** C5 as stated fails: the declaration [[{"labels": 5}]] normalises and
    is attached to [f], and expanding [f] raises a [TypeError] where the
    labels are listed, so no unit is returned. *)
Lemma untyped_labels_break_expansion :
  ∃ block fn' h',
    normalize_cases repr_stub (CasesSeq [DictRef 1]) heap_labels_5
      = (Ok (Some block), h') ∧
    apply_cases repr_stub (Plain plain_f) (CasesSeq [DictRef 1]) heap_labels_5
      = (Ok fn', h') ∧
    generate_eval_functions fn' h'
      = Raise (TypeError "'int' object is not iterable").
Proof. do 3 eexists. split_and!; by vm_compute. Qed.

Lemma id_or_index_declared repr (case : gmap string value) i :
  id_or_index (id_text repr (get case "id")) i = id_or_position repr case i.
Proof.
  unfold id_or_position, id_text, get.
  destruct (case !! "id") as [v|]; [|done]. cbn.
  by destruct (is_None v).
Qed.

(** C6, as the code has it. Under the conditions of C5 the callable of
    the case at position [i] is named ["<base-name>[<id-or-index>]"],
    where the text between the brackets is the string of the case's [id]
    when the case has an [id] that is not [None] and whose string is not
    empty, and the position [i] otherwise. Nothing is asked of the names:
    equal names do not keep the units from being produced. *)
Theorem display_names repr fn elems (h h' : heap) block :
  Forall (live h) elems →
  no_inner_table fn →
  base_metadata_typed fn →
  Forall (case_typed h) elems →
  normalize_cases repr (CasesSeq elems) h = (Ok (Some block), h') →
  apply_cases repr fn (CasesSeq elems) h = (Ok (set_case_attrs fn block), h') ∧
  ∃ units,
    generate_eval_functions (set_case_attrs fn block) h' = Ok units ∧
    ∀ i l, elems !! i = Some (DictRef l) →
      ∃ u, units !! i = Some u ∧
           wrapper_name (unit_func u) =
             __name__ (base_func_of fn) +:+ "["
             +:+ id_or_position repr (h !!! l) i +:+ "]".
Proof.
  intros Hlive Hinner Hbase Htyped Hnorm.
  destruct (expand_units repr fn elems h h' block)
    as (Hids & Happly & units & Hexp & Hlen & Hall); [done..|].
  split; [done|]. exists units. split; [done|]. intros i l Hl.
  destruct (Hall i l Hl) as (u & Hu & Hunit). exists u. split; [done|].
  apply eval_unit_inv in Hunit as (_ & _ & ->). cbn.
  rewrite case_id_at_lookup, Hids, list_lookup_fmap, Hl. cbn.
  rewrite id_or_index_declared. by destruct fn.
Qed.

Lemma display_names_witness :
  apply_cases repr_stub (Plain plain_f) (CasesSeq [DictRef 1; DictRef 2])
    heap_same_name
  = (Ok (set_case_attrs (Plain plain_f)
           {| case_sets := [3; 4]; case_ids := [Some "1"; None] |}),
     <[ 4 := {[ "dataset" := VNone ]} ]> (<[ 3 := ∅ ]> heap_same_name)) ∧
  ∃ units,
    generate_eval_functions
      (set_case_attrs (Plain plain_f)
         {| case_sets := [3; 4]; case_ids := [Some "1"; None] |})
      (<[ 4 := {[ "dataset" := VNone ]} ]> (<[ 3 := ∅ ]> heap_same_name))
    = Ok units ∧
    ∀ i l, [DictRef 1; DictRef 2] !! i = Some (DictRef l) →
      ∃ u, units !! i = Some u ∧
           wrapper_name (unit_func u) =
             __name__ (base_func_of (Plain plain_f)) +:+ "["
             +:+ id_or_position repr_stub (heap_same_name !!! l) i +:+ "]".
Proof.
  apply (display_names repr_stub (Plain plain_f) [DictRef 1; DictRef 2]
           heap_same_name
           (<[ 4 := {[ "dataset" := VNone ]} ]> (<[ 3 := ∅ ]> heap_same_name))
           {| case_sets := [3; 4]; case_ids := [Some "1"; None] |}).
  - apply (bool_decide_unpack _). vm_compute. exact I.
  - vm_compute. exact I.
  - vm_compute. exact I.
  - apply (bool_decide_unpack _). vm_compute. exact I.
  - vm_compute. reflexivity.
Defined.

(** Both callables of the example are named [f[1]], and both exist. *)
Example same_name_twice :
  ∃ fn' h' u1 u2,
    apply_cases repr_stub (Plain plain_f) (CasesSeq [DictRef 1; DictRef 2])
      heap_same_name = (Ok fn', h') ∧
    generate_eval_functions fn' h' = Ok [u1; u2] ∧
    wrapper_name (unit_func u1) = "f[1]" ∧
    wrapper_name (unit_func u2) = "f[1]".
Proof. do 4 eexists. split_and!; [by vm_compute|by vm_compute|done..]. Qed.

(** C6 as stated fails: the case [{"id": ""}] has an id, whose string is
    empty, and its callable is named by its position, [f[0]], not [f[]]. *)
Lemma empty_id_named_by_position :
  heap_empty_id !! 1 = Some {[ "id" := VStr "" ]} ∧
  py_str repr_stub (VStr "") = "" ∧
  ∃ fn' h' u,
    apply_cases repr_stub (Plain plain_f) (CasesSeq [DictRef 1]) heap_empty_id
      = (Ok fn', h') ∧
    generate_eval_functions fn' h' = Ok [u] ∧
    wrapper_name (unit_func u) = "f[0]" ∧
    wrapper_name (unit_func u)
      ≠ "f" +:+ "[" +:+ py_str repr_stub (VStr "") +:+ "]".
Proof.
  split; [by vm_compute|]. split; [done|].
  do 3 eexists. split_and!; [by vm_compute|by vm_compute|done|by vm_compute].
Qed.

(** * Further properties of [cases.py] *)

(** ** Normalisation *)

Section normalize_more.
  Context (repr : value → string).

Lemma normalize_loop_not_dict (h0 : heap) elems : ∀ idx cs ids (h : heap) i,
  h0 ⊆ h →
  elems !! i = Some NotADict →
  (∀ j e, j < i → elems !! j = Some e → live h0 e ∧ well_formed h0 e) →
  (normalize_loop repr idx elems cs ids h).1 =
    Raise (ValueError ("Case " +:+ pretty (idx + i) +:+ " must be a dict")).
Proof.
  induction elems as [|e elems IH]; intros idx cs ids h i Hsub Hi Hbefore;
    [done|].
  destruct i as [|i].
  { injection Hi as ->. by rewrite Nat.add_0_r. }
  destruct (Hbefore 0 e) as [Hlive Hwf]; [lia|done|].
  destruct e as [l| |l k ks]; [|done..]. cbn in Hlive, Hwf.
  apply bool_decide_unpack in Hlive. apply bool_decide_unpack in Hwf.
  rewrite normalize_loop_cons. cbn zeta.
  rewrite (lookup_total_later h0 h l Hsub Hlive), Hwf.
  rewrite bool_decide_eq_false_2 by (by intros []).
  rewrite <-Nat.add_succ_comm. apply IH; [|done|].
  - etrans; [exact Hsub|]. apply insert_subseteq, fresh_loc_unused.
  - intros j e' Hj He'. apply (Hbefore (S j)); [lia|done].
Qed.

Lemma normalize_loop_total (h0 : heap) elems : ∀ idx cs ids (h : heap),
  h0 ⊆ h →
  Forall (live h0) elems →
  Forall (well_formed h0) elems →
  ∃ block h', normalize_loop repr idx elems cs ids h = (Ok block, h').
Proof.
  induction elems as [|e elems IH]; intros idx cs ids h Hsub Hlive Hwf.
  { by do 2 eexists. }
  apply Forall_cons in Hlive as [Hl Hlive]. apply Forall_cons in Hwf as [Hw Hwf].
  destruct e as [l| |l k ks]; [|done..]. cbn in Hl, Hw.
  apply bool_decide_unpack in Hl. apply bool_decide_unpack in Hw.
  rewrite normalize_loop_cons. cbn zeta.
  rewrite (lookup_total_later h0 h l Hsub Hl), Hw.
  rewrite bool_decide_eq_false_2 by (by intros []).
  apply IH; [|done..].
  etrans; [exact Hsub|]. apply insert_subseteq, fresh_loc_unused.
Qed.

(** The new case dicts are new objects: pairwise distinct, and none of
    them existed when the loop started. *)
Lemma normalize_loop_fresh elems : ∀ idx cs ids (h h' : heap) block,
  normalize_loop repr idx elems cs ids h = (Ok block, h') →
  ∃ new_sets,
    case_sets block = cs ++ new_sets ∧
    NoDup new_sets ∧
    ∀ l', l' ∈ new_sets → h !! l' = None.
Proof.
  induction elems as [|[l| |l k ks] rest IH];
    intros idx cs ids h h' block Hrun.
  - injection Hrun as <- <-. exists []. cbn. rewrite app_nil_r.
    split_and!; [done|constructor|]. by intros l' ?%elem_of_nil.
  - rewrite normalize_loop_cons in Hrun. cbn zeta in Hrun.
    destruct (bool_decide _); [done|].
    apply IH in Hrun as (new_sets & -> & Hnd & Hnew).
    exists (fresh (dom h) :: new_sets). rewrite <-app_assoc.
    split_and!; [done| |].
    + apply NoDup_cons. split; [|done]. intros Hin%Hnew.
      by rewrite lookup_insert_eq in Hin.
    + intros l' [->|Hin]%elem_of_cons; [apply fresh_loc_unused|].
      apply Hnew in Hin. apply lookup_insert_None in Hin. tauto.
  - done.
  - rewrite normalize_loop_int_keys in Hrun. by destruct (bool_decide _).
Qed.

End normalize_more.

(** X1. When the first element of a declaration that is not a dict stands
    at position [i], and the elements before it are dicts with reserved
    keys only, [normalize_cases] raises [ValueError("Case i must be a
    dict")], and so does [apply_cases]. *)
Theorem first_non_dict_element_is_reported
    repr fn elems (h : heap) i :
  elems !! i = Some NotADict →
  (∀ j e, j < i → elems !! j = Some e → live h e ∧ well_formed h e) →
  (normalize_cases repr (CasesSeq elems) h).1 =
    Raise (ValueError ("Case " +:+ pretty i +:+ " must be a dict")) ∧
  (apply_cases repr fn (CasesSeq elems) h).1 =
    Raise (ValueError ("Case " +:+ pretty i +:+ " must be a dict")).
Proof.
  intros Hi Hbefore.
  assert ((normalize_cases repr (CasesSeq elems) h).1 =
          Raise (ValueError ("Case " +:+ pretty i +:+ " must be a dict")))
    as Hnorm.
  { rewrite normalize_cases_seq.
    pose proof (normalize_loop_not_dict repr h elems 0 [] [] h i
                  (reflexivity h) Hi Hbefore) as Hloop.
    by destruct (normalize_loop repr 0 elems [] [] h) as [[?| |] ?];
      simplify_eq/=. }
  split; [done|]. by apply apply_cases_raise.
Qed.

Lemma first_non_dict_element_is_reported_witness :
  (normalize_cases repr_stub (CasesSeq [DictRef 1; NotADict]) heap_one).1 =
    Raise (ValueError ("Case " +:+ pretty 1 +:+ " must be a dict")) ∧
  (apply_cases repr_stub (Plain plain_f) (CasesSeq [DictRef 1; NotADict])
     heap_one).1 =
    Raise (ValueError ("Case " +:+ pretty 1 +:+ " must be a dict")).
Proof.
  apply (first_non_dict_element_is_reported repr_stub (Plain plain_f)
           [DictRef 1; NotADict] heap_one 1).
  - reflexivity.
  - intros [|j] e Hj He; [|lia]. injection He as <-.
    split; vm_compute; exact I.
Defined.

(** X2. A declaration normalises exactly when each of its elements is a
    dict all of whose keys are reserved, [id] apart: then
    [normalize_cases] returns a table, and otherwise it does not. *)
Theorem normalization_succeeds_iff_well_formed repr elems (h : heap) :
  Forall (live h) elems →
  (∃ block h', normalize_cases repr (CasesSeq elems) h = (Ok (Some block), h'))
  ↔ Forall (well_formed h) elems.
Proof.
  intros Hlive. split.
  - intros (block & h' & Hnorm).
    pose proof (normalize_cases_ok repr elems h h' block Hlive Hnorm) as Hall.
    clear -Hall.
    induction Hall as [|e l' i es ls is_ (l & -> & Hnone & _) _ IH];
      constructor; [|done].
    cbn. by apply bool_decide_pack.
  - intros Hwf.
    destruct (normalize_loop_total repr h elems 0 [] [] h)
      as (block & h' & Hrun); [done..|].
    exists block, h'. by rewrite normalize_cases_seq, Hrun.
Qed.

Lemma normalization_succeeds_iff_well_formed_witness :
  (∃ block h',
     normalize_cases repr_stub (CasesSeq [DictRef 1; DictRef 2]) heap_ab
     = (Ok (Some block), h'))
  ↔ Forall (well_formed heap_ab) [DictRef 1; DictRef 2].
Proof.
  apply (normalization_succeeds_iff_well_formed repr_stub
           [DictRef 1; DictRef 2] heap_ab).
  apply (bool_decide_unpack _). vm_compute. exact I.
Defined.

(** X3. The table of a declaration that normalises has one case dict and
    one id per element, in order. The case dict of an element has the
    entries of the declared dict under every key but [id], has no [id],
    and has reserved keys only; the id is [None] when the element has no
    [id] or the [id] [None], and the string of the [id] otherwise. *)
Theorem normalized_table_shape repr elems (h h' : heap) block :
  Forall (live h) elems →
  normalize_cases repr (CasesSeq elems) h = (Ok (Some block), h') →
  length (case_sets block) = length elems ∧
  length (case_ids block) = length elems ∧
  ∀ i l, elems !! i = Some (DictRef l) →
    ∃ l', case_sets block !! i = Some l' ∧
      (∀ k, k ≠ "id" → (h' !!! l') !! k = (h !!! l) !! k) ∧
      (h' !!! l') !! "id" = None ∧
      dom (h' !!! l') ⊆ RESERVED_CASE_KEYS ∧
      case_ids block !! i =
        Some (match (h !!! l) !! "id" with
              | None | Some VNone => None
              | Some v => Some (py_str repr v)
              end).
Proof.
  intros Hlive Hnorm.
  pose proof (normalize_cases_ok repr elems h h' block Hlive Hnorm) as Hall.
  split_and!.
  - symmetry. by eapply Forall3_length_lm.
  - symmetry. by eapply Forall3_length_lr.
  - intros i l Hl.
    destruct (Forall3_lookup_l _ _ _ _ _ _ Hall Hl)
      as (l' & id & Hl' & Hid & (l0 & [= <-] & Hnone & Hcopy & ->)).
    exists l'. rewrite (lookup_total_correct h' l' _ Hcopy).
    split_and!; [done| | | |].
    + intros k Hk. by rewrite lookup_delete_ne.
    + apply lookup_delete_eq.
    + intros k Hk. destruct (decide (k ∈ RESERVED_CASE_KEYS)) as [|Hout]; [done|].
      assert (k ∈ unknown_keys (h !!! l)) as Hin
        by by apply elem_of_difference.
      rewrite Hnone in Hin. by apply not_elem_of_empty in Hin.
    + rewrite Hid. f_equal. unfold id_text, get.
      destruct ((h !!! l) !! "id") as [v|]; [|done]. by destruct v.
Qed.

Lemma normalized_table_shape_witness :
  length (case_sets {| case_sets := [3; 4];
                       case_ids := [Some "a"; Some "b"] |})
    = length [DictRef 1; DictRef 2] ∧
  length (case_ids {| case_sets := [3; 4]; case_ids := [Some "a"; Some "b"] |})
    = length [DictRef 1; DictRef 2] ∧
  ∀ i l, [DictRef 1; DictRef 2] !! i = Some (DictRef l) →
    ∃ l', case_sets {| case_sets := [3; 4];
                       case_ids := [Some "a"; Some "b"] |} !! i = Some l' ∧
      (∀ k, k ≠ "id" →
         (heap_ab_normalized !!! l') !! k = (heap_ab !!! l) !! k) ∧
      (heap_ab_normalized !!! l') !! "id" = None ∧
      dom (heap_ab_normalized !!! l') ⊆ RESERVED_CASE_KEYS ∧
      case_ids {| case_sets := [3; 4];
                  case_ids := [Some "a"; Some "b"] |} !! i =
        Some (match (heap_ab !!! l) !! "id" with
              | None | Some VNone => None
              | Some v => Some (py_str repr_stub v)
              end).
Proof.
  apply (normalized_table_shape repr_stub [DictRef 1; DictRef 2] heap_ab
           heap_ab_normalized
           {| case_sets := [3; 4]; case_ids := [Some "a"; Some "b"] |}).
  - apply (bool_decide_unpack _). vm_compute. exact I.
  - vm_compute. reflexivity.
Defined.

(** X4. The case dicts of the table are new objects, one per element:
    they are pairwise distinct and none of them is a dict that existed
    before the call, even when the declaration lists the same dict object
    more than once. *)
Theorem normalized_cases_are_fresh_copies repr elems (h h' : heap) block :
  normalize_cases repr (CasesSeq elems) h = (Ok (Some block), h') →
  NoDup (case_sets block) ∧
  ∀ l', l' ∈ case_sets block → h !! l' = None.
Proof.
  rewrite normalize_cases_seq.
  destruct (normalize_loop repr 0 elems [] [] h) as [[block'| |] h1] eqn:Hrun;
    [|done..].
  intros [= <- <-].
  by destruct (normalize_loop_fresh repr elems 0 [] [] h h1 block' Hrun)
    as (new_sets & -> & ? & ?).
Qed.

Lemma normalized_cases_are_fresh_copies_witness :
  NoDup (case_sets {| case_sets := [2; 3]; case_ids := [None; None] |}) ∧
  ∀ l', l' ∈ case_sets {| case_sets := [2; 3]; case_ids := [None; None] |} →
        heap_one !! l' = None.
Proof.
  apply (normalized_cases_are_fresh_copies repr_stub [DictRef 1; DictRef 1]
           heap_one
           (<[ 3 := {[ "input" := VStr "x" ]} ]>
              (<[ 2 := {[ "input" := VStr "x" ]} ]> heap_one))
           {| case_sets := [2; 3]; case_ids := [None; None] |}).
  vm_compute. reflexivity.
Defined.

(** ** Expansion *)

Ltac reserved :=
  apply (bool_decide_unpack _); vm_compute; exact I.

(** X5. An empty list is a declaration, not the absence of one:
    [apply_cases] returns the function as it is for [None] and attaches
    an empty table for [[]], and expanding the function with the empty
    table returns the empty list, not an error. *)
Theorem empty_declaration_expands_to_no_units repr fn (h : heap) :
  no_inner_table fn →
  apply_cases repr fn CasesNone h = (Ok fn, h) ∧
  apply_cases repr fn (CasesSeq []) h =
    (Ok (set_case_attrs fn {| case_sets := []; case_ids := [] |}), h) ∧
  generate_eval_functions
    (set_case_attrs fn {| case_sets := []; case_ids := [] |}) h = Ok [].
Proof.
  intros Hinner. split_and!; [done..|].
  by rewrite generate_eval_functions_unfold, find_case_attrs_attached.
Qed.

Lemma empty_declaration_expands_to_no_units_witness :
  apply_cases repr_stub (Decorated base_prod) CasesNone heap_ab
    = (Ok (Decorated base_prod), heap_ab) ∧
  apply_cases repr_stub (Decorated base_prod) (CasesSeq []) heap_ab =
    (Ok (set_case_attrs (Decorated base_prod)
           {| case_sets := []; case_ids := [] |}), heap_ab) ∧
  generate_eval_functions
    (set_case_attrs (Decorated base_prod)
       {| case_sets := []; case_ids := [] |}) heap_ab = Ok [].
Proof.
  apply (empty_declaration_expands_to_no_units repr_stub
           (Decorated base_prod) heap_ab).
  vm_compute. exact I.
Defined.

(** X6. A table on the wrapped function takes precedence: when the
    function under a wrapper has [__case_sets__], whatever table is
    attached to the wrapper is ignored by [generate_eval_functions]. *)
Theorem inner_table_takes_precedence e block (h : heap) :
  is_Some (__case_sets__ (func e)) →
  generate_eval_functions (set_case_attrs (Decorated e) block) h =
  generate_eval_functions (Decorated e) h.
Proof.
  intros [sets Hsets].
  rewrite !generate_eval_functions_unfold. unfold find_case_attrs. cbn.
  by rewrite Hsets.
Qed.

Lemma inner_table_takes_precedence_witness :
  generate_eval_functions
    (set_case_attrs
       (Decorated
          {| func := plain_f_short_ids; dataset := VNone; labels := [];
             evaluators := VNone; target := VNone; timeout := VNone;
             context_kwargs := ∅; context_param := None;
             _provided_labels := VNone; _provided_evaluators := VNone;
             wrapper_case_sets := None; wrapper_case_ids := None |})
       {| case_sets := [1]; case_ids := [Some "a"] |})
    heap_two_plain_cases =
  generate_eval_functions
    (Decorated
       {| func := plain_f_short_ids; dataset := VNone; labels := [];
          evaluators := VNone; target := VNone; timeout := VNone;
          context_kwargs := ∅; context_param := None;
          _provided_labels := VNone; _provided_evaluators := VNone;
          wrapper_case_sets := None; wrapper_case_ids := None |})
    heap_two_plain_cases.
Proof.
  apply (inner_table_takes_precedence
           {| func := plain_f_short_ids; dataset := VNone; labels := [];
              evaluators := VNone; target := VNone; timeout := VNone;
              context_kwargs := ∅; context_param := None;
              _provided_labels := VNone; _provided_evaluators := VNone;
              wrapper_case_sets := None; wrapper_case_ids := None |}
           {| case_sets := [1]; case_ids := [Some "a"] |}
           heap_two_plain_cases).
  by eexists.
Defined.

(** X7. The evaluators of a unit: those of the base specification when
    the case has no key [evaluators], the empty list when the case's
    [evaluators] is [None], and the case's value, unmerged, otherwise. *)
Theorem evaluators_replace_or_clear fn (h : heap) units i u :
  generate_eval_functions fn h = Ok units →
  units !! i = Some u →
  ∃ l, case_table fn !! i = Some l ∧
    unit_evaluators u =
      match (h !!! l) !! "evaluators" with
      | None => if_settings (eval_settings_of fn) evaluators VNone
      | Some VNone => VList []
      | Some v => v
      end.
Proof.
  intros Hgen Hu. destruct (unit_of_case _ _ _ _ _ Hgen Hu) as (l & Hl & Hunit).
  exists l. split; [done|].
  apply eval_unit_inv in Hunit as (_ & _ & ->). cbn.
  destruct ((h !!! l) !! "evaluators") as [v|] eqn:Hv.
  - destruct (contains_Some _ _ _ Hv) as [-> ->]. by destruct v.
  - by rewrite (contains_None _ _ Hv).
Qed.

Lemma evaluators_replace_or_clear_witness :
  ∃ l, case_table (Plain plain_f_short_ids) !! 1 = Some l ∧
    VList [] =
      match (heap_two_plain_cases !!! l) !! "evaluators" with
      | None =>
          if_settings (eval_settings_of (Plain plain_f_short_ids))
            evaluators VNone
      | Some VNone => VList []
      | Some v => v
      end.
Proof.
  eapply (evaluators_replace_or_clear (Plain plain_f_short_ids)
            heap_two_plain_cases _ 1
            {| unit_func := {| wrapper_name := "f[1]"; takes_context := false;
                               is_coroutine := false;
                               forwards_to := plain_f_short_ids |};
               unit_dataset := VNone; unit_labels := [];
               unit_evaluators := VList []; unit_target := VNone;
               unit_input := VNone; unit_reference := VNone;
               unit_default_score_key := VNone; unit_metadata := VNone;
               unit_timeout := VNone;
               unit_provided_labels := AsConstructed;
               unit_provided_evaluators := Assigned (VList []) |}).
  - vm_compute. reflexivity.
  - reflexivity.
Defined.

(** X8. A case that has none of the reserved keys changes nothing: the
    loop body returns, without error, the unit that carries every setting
    of the base specification ([None], or no labels, where there is no
    base specification). *)
Theorem case_without_overrides_yields_base
    s b ctx async ids idx (case : gmap string value) :
  (∀ k, k ∈ RESERVED_CASE_KEYS → case !! k = None) →
  eval_unit s b ctx async ids idx case =
    Ok {| unit_func :=
            {| wrapper_name :=
                 __name__ b +:+ "[" +:+ id_or_index (case_id_at ids idx) idx
                 +:+ "]";
               takes_context := ctx; is_coroutine := async;
               forwards_to := b |};
          unit_dataset := if_settings s dataset VNone;
          unit_labels := if_settings s labels [];
          unit_evaluators := if_settings s evaluators VNone;
          unit_target := if_settings s target VNone;
          unit_input := if_settings s (λ e, get (context_kwargs e) "input") VNone;
          unit_reference :=
            if_settings s (λ e, get (context_kwargs e) "reference") VNone;
          unit_default_score_key :=
            if_settings s (λ e, get (context_kwargs e) "default_score_key") VNone;
          unit_metadata :=
            if_settings s (λ e, get (context_kwargs e) "metadata") VNone;
          unit_timeout := if_settings s timeout VNone;
          unit_provided_labels :=
            if_settings s (λ e, Assigned (_provided_labels e)) AsConstructed;
          unit_provided_evaluators :=
            if_settings s (λ e, Assigned (_provided_evaluators e)) AsConstructed |}.
Proof.
  intros Hnone. unfold eval_unit, resolve_labels, resolve_metadata. cbn zeta.
  rewrite !contains_None by (apply Hnone; reserved). done.
Qed.

Lemma case_without_overrides_yields_base_witness :
  eval_unit (Some base_prod) plain_f false false [] 0 ∅ =
    Ok {| unit_func := {| wrapper_name := "f[0]"; takes_context := false;
                          is_coroutine := false; forwards_to := plain_f |};
          unit_dataset := VNone; unit_labels := ["prod"];
          unit_evaluators := VNone; unit_target := VNone;
          unit_input := VNone; unit_reference := VNone;
          unit_default_score_key := VNone;
          unit_metadata := VDict {[ "j" := VInt 0 ]};
          unit_timeout := VInt 30;
          unit_provided_labels := Assigned (VList [VStr "prod"]);
          unit_provided_evaluators := Assigned VNone |}.
Proof.
  apply (case_without_overrides_yields_base (Some base_prod) plain_f
           false false [] 0 ∅).
  intros k _. apply lookup_empty.
Defined.

(** X10. Where the id list is shorter than the table, the cases beyond
    its end are named by their position: the lookup of the id is guarded
    by [idx < len(case_ids)]. *)
Theorem cases_beyond_id_list_named_by_position fn (h : heap) units i u :
  generate_eval_functions fn h = Ok units →
  units !! i = Some u →
  length (id_column fn) ≤ i →
  wrapper_name (unit_func u) =
    __name__ (base_func_of fn) +:+ "[" +:+ pretty i +:+ "]".
Proof.
  intros Hgen Hu Hshort.
  destruct (unit_of_case _ _ _ _ _ Hgen Hu) as (l & Hl & Hunit).
  apply eval_unit_inv in Hunit as (_ & _ & ->). cbn.
  by rewrite case_id_at_lookup, (lookup_ge_None_2 _ _ Hshort).
Qed.

Lemma cases_beyond_id_list_named_by_position_witness :
  ∃ u, wrapper_name (unit_func u) =
         __name__ (base_func_of (Plain plain_f_short_ids)) +:+ "["
         +:+ pretty 1 +:+ "]".
Proof.
  eexists.
  eapply (cases_beyond_id_list_named_by_position (Plain plain_f_short_ids)
            heap_two_plain_cases _ 1).
  - vm_compute. reflexivity.
  - reflexivity.
  - vm_compute. lia.
Defined.

Lemma string_length_app (s t : string) :
  String.length (s +:+ t) = String.length s + String.length t.
Proof.
  induction s as [|a s IH]; [done|].
  change (String a s +:+ t) with (String a (s +:+ t)).
  cbn [String.length]. by rewrite IH.
Qed.

Lemma string_app_inj_r (s1 s2 t : string) : s1 +:+ t = s2 +:+ t → s1 = s2.
Proof.
  revert s2. induction s1 as [|a s1 IH]; intros [|b s2] Heq; [done| | |].
  - apply (f_equal String.length) in Heq.
    rewrite !string_length_app in Heq. cbn [String.length] in Heq. lia.
  - apply (f_equal String.length) in Heq.
    rewrite !string_length_app in Heq. cbn [String.length] in Heq. lia.
  - change (String a (s1 +:+ t) = String b (s2 +:+ t)) in Heq.
    injection Heq as -> Heq. f_equal. by apply IH.
Qed.

(** X11. Cases without an id never share a display name: two units at
    different positions whose cases have no id are named differently. *)
Theorem unnamed_cases_have_distinct_names fn (h : heap) units i j u u' :
  generate_eval_functions fn h = Ok units →
  units !! i = Some u →
  units !! j = Some u' →
  i ≠ j →
  default None (id_column fn !! i) = None →
  default None (id_column fn !! j) = None →
  wrapper_name (unit_func u) ≠ wrapper_name (unit_func u').
Proof.
  intros Hgen Hu Hu' Hij Hi Hj.
  destruct (unit_of_case _ _ _ _ _ Hgen Hu) as (l & Hl & Hunit).
  destruct (unit_of_case _ _ _ _ _ Hgen Hu') as (l' & Hl' & Hunit').
  apply eval_unit_inv in Hunit as (_ & _ & ->).
  apply eval_unit_inv in Hunit' as (_ & _ & ->). cbn.
  rewrite !case_id_at_lookup, Hi, Hj. cbn.
  intros Heq. apply (inj _) in Heq. apply (inj _) in Heq.
  apply string_app_inj_r in Heq. by apply (inj pretty) in Heq.
Qed.

Lemma unnamed_cases_have_distinct_names_witness :
  ∃ u u', wrapper_name (unit_func u) ≠ wrapper_name (unit_func u').
Proof.
  do 2 eexists.
  eapply (unnamed_cases_have_distinct_names (Plain plain_f_short_ids)
            heap_two_plain_cases _ 0 1).
  - vm_compute. reflexivity.
  - reflexivity.
  - reflexivity.
  - lia.
  - reflexivity.
  - reflexivity.
Defined.

Section generate_more.
  Context (h : heap) (s : option EvalFunction) (b : PyFunction)
    (ctx async : bool) (ids : list (option string)).

Lemma generate_loop_raise sets : ∀ idx acc i l e,
  sets !! i = Some l →
  eval_unit s b ctx async ids (idx + i) (h !!! l) = Raise e →
  (∀ j l', j < i → sets !! j = Some l' →
     ∃ u, eval_unit s b ctx async ids (idx + j) (h !!! l') = Ok u) →
  generate_loop h s b ctx async ids idx sets acc = Raise e.
Proof.
  induction sets as [|l0 sets IH]; intros idx acc i l e Hl He Hbefore; [done|].
  destruct i as [|i]; cbn.
  - injection Hl as ->. rewrite Nat.add_0_r in He. by rewrite He.
  - destruct (Hbefore 0 l0) as [u Hu]; [lia|done|].
    rewrite Nat.add_0_r in Hu. rewrite Hu. cbn.
    apply (IH (S idx) _ i l e); [done|by rewrite Nat.add_succ_comm|].
    intros j l' Hj Hl'. rewrite Nat.add_succ_comm.
    apply (Hbefore (S j)); [lia|done].
Qed.

End generate_more.

(** X12. Expansion is all or nothing: when the loop body raises on the
    case at position [i] and returns on the cases before it,
    [generate_eval_functions] raises that exception, and the units
    already made for the earlier cases are not returned. *)
Theorem first_failing_case_fails_expansion fn (h : heap) i l e :
  case_table fn !! i = Some l →
  eval_unit (eval_settings_of fn) (base_func_of fn) (has_context_of fn)
    (iscoroutinefunction (base_func_of fn)) (id_column fn) i (h !!! l)
    = Raise e →
  (∀ j l', j < i → case_table fn !! j = Some l' →
     ∃ u, eval_unit (eval_settings_of fn) (base_func_of fn) (has_context_of fn)
            (iscoroutinefunction (base_func_of fn)) (id_column fn) j (h !!! l')
          = Ok u) →
  generate_eval_functions fn h = Raise e.
Proof.
  unfold case_table, id_column. rewrite generate_eval_functions_unfold.
  destruct (find_case_attrs fn (base_func_of fn)) as [[[sets ids]|]| |];
    [|done..].
  cbn. intros Hl He Hbefore.
  by apply (generate_loop_raise h _ _ _ _ ids sets 0 [] i l e).
Qed.

Lemma first_failing_case_fails_expansion_witness :
  generate_eval_functions (Plain plain_f_short_ids) heap_second_case_untyped
  = Raise (TypeError "'int' object is not iterable").
Proof.
  apply (first_failing_case_fails_expansion (Plain plain_f_short_ids)
           heap_second_case_untyped 1 2).
  - reflexivity.
  - vm_compute. reflexivity.
  - intros [|j] l' Hj Hl'; [|lia]. injection Hl' as <-.
    eexists. vm_compute. reflexivity.
Defined.

(** ** The settings merger *)

Lemma filter_not_in_nil (acc o : list string) :
  (∀ x, x ∈ o → x ∈ acc) → filter (λ l, l ∉ acc) o = [].
Proof.
  induction o as [|x o IH]; intros Hsub; [done|].
  rewrite filter_cons_False.
  - apply IH. intros y Hy. apply Hsub. by right.
  - intros Hx. apply Hx, Hsub. by left.
Qed.

(** X13. Merging labels is idempotent: merging the same override into the
    result once more changes nothing; and an override all of whose
    labels are base labels leaves the base labels as they are. *)
Theorem merge_labels_idempotent (base o : list string) :
  _merge_labels (_merge_labels base (Some o)) (Some o)
    = _merge_labels base (Some o) ∧
  ((∀ x, x ∈ o → x ∈ base) → _merge_labels base (Some o) = base).
Proof.
  unfold _merge_labels. split.
  - rewrite (filter_not_in_nil (base ++ filter (λ l, l ∉ base) o) o).
    + by rewrite app_nil_r.
    + intros x Hx. apply elem_of_app. rewrite list_elem_of_filter.
      destruct (decide (x ∈ base)); tauto.
  - intros Hsub. by rewrite filter_not_in_nil, app_nil_r.
Qed.

Lemma merge_labels_idempotent_witness :
  _merge_labels (_merge_labels ["a"; "b"] (Some ["a"; "y"])) (Some ["a"; "y"])
    = _merge_labels ["a"; "b"] (Some ["a"; "y"]) ∧
  ((∀ x, x ∈ ["a"; "y"] → x ∈ ["a"; "b"]) →
   _merge_labels ["a"; "b"] (Some ["a"; "y"]) = ["a"; "b"]).
Proof. apply (merge_labels_idempotent ["a"; "b"] ["a"; "y"]). Defined.

(** X14. A labels override given as a string is read as the list of its
    characters: the unit gets the base labels followed by the characters
    of the string that are not base labels; for the empty string that is
    the base labels, which are not cleared. *)
Theorem string_labels_split_into_characters
    base (case : gmap string value) s :
  case !! "labels" = Some (VStr s) →
  resolve_labels base case = Ok (base ++ filter (λ l, l ∉ base) (chars s)).
Proof.
  intros Hl. unfold resolve_labels.
  by destruct (contains_Some case "labels" _ Hl) as [-> ->].
Qed.

Lemma string_labels_split_into_characters_witness :
  resolve_labels ["p"] {[ "labels" := VStr "prod" ]}
  = Ok (["p"] ++ filter (λ l, l ∉ ["p"]) (chars "prod")).
Proof.
  apply (string_labels_split_into_characters ["p"]
           {[ "labels" := VStr "prod" ]} "prod").
  vm_compute. reflexivity.
Defined.

Example string_labels_prod :
  resolve_labels ["p"] {[ "labels" := VStr "prod" ]} = Ok ["p"; "r"; "o"; "d"].
Proof. by vm_compute. Qed.

(** X15. A labels override that is a number, a boolean or a function is
    not iterable: resolving the labels raises a [TypeError], and so does
    the loop body, whatever the other entries of the case. *)
Theorem non_iterable_labels_raise
    s b ctx async ids idx (case : gmap string value) v :
  case !! "labels" = Some v →
  not_iterable v →
  ∃ msg,
    resolve_labels (if_settings s labels []) case = Raise (TypeError msg) ∧
    eval_unit s b ctx async ids idx case = Raise (TypeError msg).
Proof.
  intros Hl Hv.
  assert (∃ msg, resolve_labels (if_settings s labels []) case
                 = Raise (TypeError msg)) as [msg Hres].
  { unfold resolve_labels.
    destruct (contains_Some case "labels" _ Hl) as [-> ->].
    destruct v; try done; by eexists. }
  exists msg. split; [done|]. unfold eval_unit. cbn zeta. by rewrite Hres.
Qed.

Lemma non_iterable_labels_raise_witness :
  ∃ msg,
    resolve_labels (if_settings (Some base_prod) labels [])
      {[ "labels" := VBool true ]} = Raise (TypeError msg) ∧
    eval_unit (Some base_prod) plain_f false false [] 0
      {[ "labels" := VBool true ]} = Raise (TypeError msg).
Proof.
  apply (non_iterable_labels_raise (Some base_prod) plain_f false false [] 0
           {[ "labels" := VBool true ]} (VBool true)).
  - vm_compute. reflexivity.
  - exact I.
Defined.

(** X16. [_merge_metadata] never returns an empty mapping: what it
    returns is [None] or a mapping with at least one key. *)
Theorem merge_metadata_never_empty_mapping base override r :
  _merge_metadata base override = Ok r →
  r = VNone ∨ ∃ m : gmap string value, r = VDict m ∧ m ≠ ∅.
Proof.
  unfold _merge_metadata. destruct (is_None override); [intros [= <-]; by left|].
  destruct (if truthy base then dict_update ∅ base else Ok ∅)
    as [m1| |]; [|done..]. cbn [mbind outcome_bind].
  destruct (if truthy override then dict_update m1 override else Ok m1)
    as [m2| |]; [|done..]. cbn.
  destruct (size m2 =? 0) eqn:Hsize; cbn; intros [= <-]; [by left|].
  right. exists m2. split; [done|].
  apply map_size_non_empty_iff. by apply Nat.eqb_neq.
Qed.

Lemma merge_metadata_never_empty_mapping_witness :
  VDict {[ "k" := VInt 1 ]} = VNone ∨
  ∃ m : gmap string value, VDict {[ "k" := VInt 1 ]} = VDict m ∧ m ≠ ∅.
Proof.
  apply (merge_metadata_never_empty_mapping VNone (VDict {[ "k" := VInt 1 ]})).
  vm_compute. reflexivity.
Defined.

(** X17. In merged metadata the override wins key by key: a key of the
    override has the override's value, and a key the override lacks has
    the value of the base mapping, if any. *)
Theorem merged_metadata_override_wins
    base (o m : gmap string value) k :
  mapping_or_None base →
  _merge_metadata base (VDict o) = Ok (VDict m) →
  m !! k = match o !! k with
           | Some v => Some v
           | None => base_mapping base !! k
           end.
Proof.
  intros Hbase. rewrite merge_metadata_dict by done.
  destruct (size (shallow_merge base o) =? 0); [done|]. intros [= <-].
  unfold shallow_merge. rewrite lookup_union.
  destruct (o !! k), (base_mapping base !! k); done.
Qed.

Lemma merged_metadata_override_wins_witness :
  ({[ "j" := VInt 1 ]} : gmap string value) !! "j" =
    match ({[ "j" := VInt 1 ]} : gmap string value) !! "j" with
    | Some v => Some v
    | None => base_mapping (VDict {[ "j" := VInt 0 ]}) !! "j"
    end.
Proof.
  apply (merged_metadata_override_wins (VDict {[ "j" := VInt 0 ]})
           {[ "j" := VInt 1 ]} {[ "j" := VInt 1 ]} "j").
  - exact I.
  - vm_compute. reflexivity.
Defined.

(** X18. Only [None] clears the metadata. An override that is falsy but
    not [None] (zero, [False], the empty string, list or mapping) skips
    the update, so the result is the base mapping, or [None] when the
    base has no key. *)
Theorem falsy_override_keeps_base_metadata base override :
  is_None override = false →
  truthy override = false →
  mapping_or_None base →
  _merge_metadata base override =
    Ok (if size (base_mapping base) =? 0 then VNone
        else VDict (base_mapping base)).
Proof.
  intros Hnone Hfalsy Hbase. unfold _merge_metadata. rewrite Hnone, Hfalsy.
  destruct base as [| | | | |b|]; try done; cbn.
  destruct (size b =? 0) eqn:Hb; cbn; [done|].
  rewrite (right_id_L ∅ (∪)). cbn. by rewrite Hb.
Qed.

Lemma falsy_override_keeps_base_metadata_witness :
  _merge_metadata (VDict {[ "j" := VInt 0 ]}) (VInt 0) =
    Ok (if size (base_mapping (VDict {[ "j" := VInt 0 ]})) =? 0 then VNone
        else VDict (base_mapping (VDict {[ "j" := VInt 0 ]}))).
Proof.
  apply (falsy_override_keeps_base_metadata (VDict {[ "j" := VInt 0 ]})
           (VInt 0)).
  - reflexivity.
  - reflexivity.
  - exact I.
Defined.



(** * Further properties of run-name resolution *)

(** X20. When exactly one run of the session has the queried name,
    [resolve] returns that run, whether or not it is required. *)
Theorem resolve_unique (st : store) session name required id (r : RunRecord) :
  (st !!! session) !! id = Some r →
  run_name r = name →
  (∀ id' r', (st !!! session) !! id' = Some r' → run_name r' = name →
     id' = id) →
  resolve st session name required = Ok (Some r).
Proof.
  intros Hr Hname Honly. unfold resolve.
  assert (matching_runs st session name = {[ id := r ]}) as ->.
  { apply map_eq. intros k. unfold matching_runs.
    destruct (decide (k = id)) as [->|Hne].
    - rewrite lookup_singleton_eq. by apply map_lookup_filter_Some.
    - rewrite lookup_singleton_ne by done.
      apply eq_None_not_Some. intros [r' [Hr' Hn']%map_lookup_filter_Some].
      by apply Hne, (Honly k r'). }
  by rewrite map_to_list_singleton.
Qed.

Lemma resolve_unique_witness :
  resolve store_one "s1" "baseline" true
  = Ok (Some {| run_id := "run001"; session_name := "s1";
                run_name := "baseline"; summary := VNone |}).
Proof.
  apply (resolve_unique store_one "s1" "baseline" true "run001").
  - vm_compute. reflexivity.
  - reflexivity.
  - intros id' r' Hr' _.
    assert (store_one !!! "s1" =
            ({[ "run001" := {| run_id := "run001"; session_name := "s1";
                               run_name := "baseline"; summary := VNone |} ]}
               : gmap string RunRecord)) as Hs by (by vm_compute).
    rewrite Hs in Hr'. by apply lookup_singleton_Some in Hr' as [-> _].
Defined.

(** X21. When no run of the session has the queried name, [resolve]
    returns nothing if the run is optional and raises [NotFoundError],
    naming the session and the run, if it is required. *)
Theorem resolve_missing (st : store) session name :
  (∀ id r, (st !!! session) !! id = Some r → run_name r ≠ name) →
  resolve st session name false = Ok None ∧
  resolve st session name true = Raise (NotFoundError session name).
Proof.
  intros Hnone. unfold resolve.
  assert (matching_runs st session name = ∅) as ->.
  { apply map_empty. intros k. unfold matching_runs.
    apply eq_None_not_Some. intros [r [Hr Hn]%map_lookup_filter_Some].
    by apply (Hnone k r). }
  by rewrite map_to_list_empty.
Qed.

Lemma resolve_missing_witness :
  resolve store_one "s1" "missing" false = Ok None ∧
  resolve store_one "s1" "missing" true
    = Raise (NotFoundError "s1" "missing").
Proof.
  apply (resolve_missing store_one "s1" "missing").
  intros id r Hr.
  assert (store_one !!! "s1" =
          ({[ "run001" := {| run_id := "run001"; session_name := "s1";
                             run_name := "baseline"; summary := VNone |} ]}
             : gmap string RunRecord)) as Hs by (by vm_compute).
  rewrite Hs in Hr. by apply lookup_singleton_Some in Hr as [_ <-].
Defined.

